(** * da-edge: block decorators, page bootstrap and helpers

    A shallow embedding of the JavaScript of the repository:

    - [blocks/hero/hero.js], the hero block script;
    - the decorator patterns of [docs/explanation/block-system.md]
      (list-based blocks, interactive blocks, asynchronous data
      loading);
    - the page bootstrap of [docs/reference/scripts-api.md];
    - the helpers [toClassName] and [readBlockConfig] of [scripts/aem.js],
      as far as their API reference describes them.

    Strings are [string]s whose characters stand for the code units
    U+0000..U+00FF of a JavaScript string.  DOM trees are finite trees,
    element references are paths from the document node. *)

From Stdlib Require Import Ascii String List Bool Arith Lia.
From stdpp Require Import base option list strings gmap.

Local Open Scope list_scope.
Local Open Scope string_scope.

(** ** The DOM tree *)

#[local] Unset Elimination Schemes.
Inductive node :=
| Text (data : string)
| Comment (data : string)
| Element (localName : string) (attributes : list (string * string))
          (children : list node).
#[local] Set Elimination Schemes.

(** [Node.childNodes]; empty for character data. *)
Definition childNodes (n : node) : list node :=
  match n with
  | Element _ _ kids => kids
  | _ => []
  end.

(** Replacing all children of an element; character data has none. *)
Definition replaceChildren (n : node) (kids : list node) : node :=
  match n with
  | Element t a _ => Element t a kids
  | _ => n
  end.

(** [Element.getAttribute]. *)
Fixpoint getAttribute (name : string) (attrs : list (string * string))
  : option string :=
  match attrs with
  | [] => None
  | (k, v) :: rest => if String.eqb k name then Some v else getAttribute name rest
  end.

(** A node without its subtrees: what a write below it cannot change. *)
Inductive label :=
| LText (data : string)
| LComment (data : string)
| LElement (localName : string) (attributes : list (string * string)).

Definition label_of (n : node) : label :=
  match n with
  | Text d => LText d
  | Comment d => LComment d
  | Element t a _ => LElement t a
  end.

(** An element reference is the list of child indexes leading to it. *)
Abbreviation path := (list nat).

Fixpoint get_node (p : path) (n : node) : option node :=
  match p with
  | [] => Some n
  | i :: q =>
      match childNodes n !! i with
      | Some k => get_node q k
      | None => None
      end
  end.

Fixpoint update_node (f : node -> node) (p : path) (n : node) : node :=
  match p with
  | [] => f n
  | i :: q =>
      match n with
      | Element t a kids => Element t a (alter (update_node f q) i kids)
      | _ => n
      end
  end.

(** ** Selectors *)

(** ASCII whitespace, the separator of class tokens. *)
Definition is_ascii_whitespace (c : ascii) : bool :=
  match nat_of_ascii c with
  | 9 | 10 | 12 | 13 | 32 => true
  | _ => false
  end.

Fixpoint tokens_from (cur : string) (s : string) : list string :=
  match s with
  | EmptyString => if String.eqb cur EmptyString then [] else [cur]
  | String c rest =>
      if is_ascii_whitespace c
      then (if String.eqb cur EmptyString then tokens_from EmptyString rest
            else cur :: tokens_from EmptyString rest)
      else tokens_from (cur +:+ String c EmptyString) rest
  end.

(** [Element.classList] as a list of tokens. *)
Definition classList (attrs : list (string * string)) : list string :=
  match getAttribute "class" attrs with
  | Some v => tokens_from EmptyString v
  | None => []
  end.

(** The two simple selectors the sources use: [.name] and [tag]. *)
Inductive selector :=
| ClassSel (name : string)
| TypeSel (tag : string).

Definition matches (sel : selector) (n : node) : bool :=
  match n with
  | Element t a _ =>
      match sel with
      | ClassSel c => existsb (String.eqb c) (classList a)
      | TypeSel t' => String.eqb t t'
      end
  | _ => false
  end.

(** [querySelector]: the first element among the descendants of [n], in
    tree order, that matches; [None] is JavaScript's [null].  The result
    carries the path from [n] and the element found. *)
Fixpoint querySelector (sel : selector) (n : node) : option (path * node) :=
  match n with
  | Element _ _ kids =>
      (fix first_in (i : nat) (l : list node) : option (path * node) :=
         match l with
         | [] => None
         | k :: rest =>
             if matches sel k then Some ([i], k)
             else match querySelector sel k with
                  | Some (p, e) => Some (i :: p, e)
                  | None => first_in (S i) rest
                  end
         end) 0 kids
  | _ => None
  end.

(** [querySelectorAll]: every matching descendant, in tree order. *)
Fixpoint querySelectorAll (sel : selector) (n : node) : list node :=
  match n with
  | Element _ _ kids =>
      flat_map (fun k => ((if matches sel k then [k] else [])
                           ++ querySelectorAll sel k)%list) kids
  | _ => []
  end.

(** [Node.textContent]: the text of all descendants, comments excluded. *)
Fixpoint textContent (n : node) : string :=
  match n with
  | Text d => d
  | Comment d => d
  | Element _ _ kids =>
      fold_right (fun k acc =>
                    match k with
                    | Comment _ => acc
                    | _ => textContent k +:+ acc
                    end) EmptyString kids
  end.

(** [Element.children]: the element children only. *)
Definition is_element (n : node) : bool :=
  match n with Element _ _ _ => true | _ => false end.

Definition element_children (n : node) : list node :=
  filter (fun k => is_element k = true) (childNodes n).

(** ** JavaScript string operations used by the sources *)

Definition newline : ascii := ascii_of_nat 10.
Definition carriage_return : ascii := ascii_of_nat 13.
Definition tab : ascii := ascii_of_nat 9.

(** [s.replace(/[\n\r\t]/g, '')]. *)
Fixpoint remove_nrt (s : string) : string :=
  match s with
  | EmptyString => EmptyString
  | String c rest =>
      if (Ascii.eqb c newline || Ascii.eqb c carriage_return || Ascii.eqb c tab)%bool
      then remove_nrt rest
      else String c (remove_nrt rest)
  end.

(** White space and line terminators of ECMAScript among U+0000..U+00FF:
    TAB, LF, VT, FF, CR, SPACE and NO-BREAK SPACE. *)
Definition is_js_whitespace (c : ascii) : bool :=
  match nat_of_ascii c with
  | 9 | 10 | 11 | 12 | 13 | 32 | 160 => true
  | _ => false
  end.

Fixpoint trimStart (s : string) : string :=
  match s with
  | EmptyString => EmptyString
  | String c rest => if is_js_whitespace c then trimStart rest else s
  end.

Fixpoint trimEnd (s : string) : string :=
  match s with
  | EmptyString => EmptyString
  | String c rest =>
      match trimEnd rest with
      | EmptyString => if is_js_whitespace c then EmptyString else String c EmptyString
      | r => String c r
      end
  end.

(** [s.trim()]. *)
Definition trim (s : string) : string := trimEnd (trimStart s).

(** [s.startsWith(p)]. *)
Definition startsWith (s p : string) : bool := String.prefix p s.

(** The replacement text of the hero script. *)
Definition dquote : ascii := ascii_of_nat 34.

Definition dx_span : string :=
  "<span class=" +:+ String dquote "dx" +:+ String dquote ">DX</span>".

(** [s.replace(/DX/g, '<span class="dx">DX</span>')]: the matches are
    found from left to right, each search resuming after the previous
    match; the replacement text holds no [$] pattern. *)
Fixpoint replace_DX (s : string) : string :=
  match s with
  | String "D" (String "X" rest) => dx_span +:+ replace_DX rest
  | String c rest => String c (replace_DX rest)
  | EmptyString => EmptyString
  end.

(** ** The browser's HTML engine

    [innerHTML] reads through the HTML fragment serialisation algorithm
    and writes through the HTML fragment parsing algorithm, both given
    the element they are applied to.  The decorators are written against
    this interface; [reference_engine] below is an instance. *)

Class HtmlEngine := {
  serialize_fragment : node -> string;
  parse_fragment : node -> string -> list node
}.

Section InnerHTML.
Context {engine : HtmlEngine}.

(** The getter [e.innerHTML]. *)
Definition innerHTML (e : node) : string := serialize_fragment e.

(** The setter [e.innerHTML = markup]. *)
Definition set_innerHTML (markup : string) (e : node) : node :=
  replaceChildren e (parse_fragment e markup).
End InnerHTML.

(** ** Completions

    A script or a function ends normally or by a thrown exception. *)

Inductive exn :=
| TypeError (message : string)
| NetworkError (message : string)
| SyntaxError (message : string).

Inductive completion (A : Type) :=
| Normal (value : A)
| Throw (error : exn).
Arguments Normal {A} value.
Arguments Throw {A} error.

(** A member access [o.m] on [null] or [undefined] throws a [TypeError];
    the optional chain [o?.m(...)] gives [undefined] instead, which is
    [None] as [null] is. *)
Definition member {A B} (o : option A) (m : A -> B) : completion B :=
  match o with
  | Some a => Normal (m a)
  | None => Throw (TypeError "Cannot read properties of null")
  end.

Definition optional_call {A B} (o : option A) (m : A -> option B) : option B :=
  match o with
  | Some a => m a
  | None => None
  end.

(** An object reference is truthy, [null] and [undefined] are not. *)
Definition truthy {A} (o : option A) : bool :=
  match o with Some _ => true | None => false end.

(** ** blocks/hero/hero.js *)

(** The writes a script performs on the document, in program order. *)
Inductive dom_write :=
| SetInnerHTML (target : path) (markup : string).

Section Hero.
Context {engine : HtmlEngine}.

Definition apply_write (doc : node) (w : dom_write) : node :=
  match w with
  | SetInnerHTML target markup => update_node (set_innerHTML markup) target doc
  end.

(** [const heroBlock = document.querySelector('.hero')]. *)
Definition heroBlock (doc : node) : option (path * node) :=
  querySelector (ClassSel "hero") doc.

(** [const h1Element = heroBlock?.querySelector('h1')], as the path
    from the document and the element. *)
Definition h1Element (doc : node) : option (path * node) :=
  optional_call (heroBlock doc)
    (fun hb => match querySelector (TypeSel "h1") (snd hb) with
               | Some (p, h1) => Some ((fst hb ++ p)%list, h1)
               | None => None
               end).

(** The [forEach] over [h1Element.childNodes] that appends the data of
    each text node to [textOnly]. *)
Definition textOnly (kids : list node) : string :=
  fold_left (fun acc n => match n with
                          | Text d => acc +:+ d
                          | _ => acc
                          end) kids EmptyString.

(** [const cleanText = textOnly.replace(/[\n\r\t]/g, '').trim()]. *)
Definition cleanText (h1 : node) : string :=
  trim (remove_nrt (textOnly (childNodes h1))).

(** The body of the script: the writes it performs.  Inside the [if]
    the script reads [h1Element.childNodes] and [h1Element.innerHTML]
    and assigns [h1Element.innerHTML]. *)
Definition hero_writes (doc : node) : completion (list dom_write) :=
  if truthy (h1Element doc) then
    member (h1Element doc)
      (fun h1 => if startsWith (cleanText (snd h1)) "FeDX"
                 then [SetInnerHTML (fst h1) (replace_DX (innerHTML (snd h1)))]
                 else [])
  else Normal [].

(** Running the script on a document. *)
Definition hero_js (doc : node) : completion node :=
  match hero_writes doc with
  | Normal writes => Normal (fold_left apply_write writes doc)
  | Throw e => Throw e
  end.
End Hero.

(** ** A reference HTML engine

    An executable instance of [HtmlEngine] after the HTML Standard:
    the fragment serialisation algorithm, and a fragment parser made of
    the tokenizer's data, tag, attribute, comment and character
    reference states and of the tree construction rules for ordinary
    and void elements and for the line feed after a [pre] start tag.

    Outside its scope: implied end tags and the other auto-closing rules,
    active formatting elements, table, select and template insertion
    modes, foreign content, scoping barriers, the content models of raw
    text elements met inside a fragment, DOCTYPE and CDATA tokens,
    numeric character references and the named ones other than [amp],
    [lt], [gt], [quot] and [nbsp]. *)

Definition nbsp : ascii := ascii_of_nat 160.

Definition in_range (lo hi : nat) (c : ascii) : bool :=
  ((lo <=? nat_of_ascii c)%nat && (nat_of_ascii c <=? hi)%nat)%bool.

Definition is_upper (c : ascii) : bool := in_range 65 90 c.
Definition is_lower (c : ascii) : bool := in_range 97 122 c.
Definition is_digit (c : ascii) : bool := in_range 48 57 c.
Definition is_alpha (c : ascii) : bool := (is_upper c || is_lower c)%bool.
Definition is_alnum (c : ascii) : bool := (is_alpha c || is_digit c)%bool.

Definition to_lower (c : ascii) : ascii :=
  if is_upper c then ascii_of_nat (nat_of_ascii c + 32) else c.

Definition snoc (s : string) (c : ascii) : string := s +:+ String c EmptyString.

Definition mem_string (x : string) (l : list string) : bool :=
  existsb (String.eqb x) l.

Definition void_elements : list string :=
  ["area"; "base"; "basefont"; "bgsound"; "br"; "col"; "embed"; "frame";
   "hr"; "img"; "input"; "keygen"; "link"; "meta"; "param"; "source";
   "track"; "wbr"].

Definition raw_text_elements : list string :=
  ["style"; "script"; "xmp"; "iframe"; "noembed"; "noframes"; "plaintext";
   "noscript"].

(** Escaping a string, in text mode or in attribute mode. *)
Fixpoint escape (attribute_mode : bool) (s : string) : string :=
  match s with
  | EmptyString => EmptyString
  | String c rest =>
      let tail := escape attribute_mode rest in
      if Ascii.eqb c "&" then "&amp;" +:+ tail
      else if Ascii.eqb c nbsp then "&nbsp;" +:+ tail
      else if Ascii.eqb c "<" then "&lt;" +:+ tail
      else if Ascii.eqb c ">" then "&gt;" +:+ tail
      else if (attribute_mode && Ascii.eqb c dquote)%bool then "&quot;" +:+ tail
      else String c tail
  end.

Fixpoint serialize_attributes (attrs : list (string * string)) : string :=
  match attrs with
  | [] => EmptyString
  | (k, v) :: rest =>
      " " +:+ k +:+ "=" +:+ String dquote (escape true v)
          +:+ String dquote (serialize_attributes rest)
  end.

(** Serialising a node whose parent element is named [parent]. *)
Fixpoint serialize_node (parent : string) (n : node) : string :=
  match n with
  | Text d => if mem_string parent raw_text_elements then d else escape false d
  | Comment d => "<!--" +:+ d +:+ "-->"
  | Element t a kids =>
      "<" +:+ t +:+ serialize_attributes a +:+ ">"
          +:+ (if mem_string t void_elements then EmptyString
               else (fix each (l : list node) : string :=
                       match l with
                       | [] => EmptyString
                       | k :: rest => serialize_node t k +:+ each rest
                       end) kids +:+ "</" +:+ t +:+ ">")
  end.

(** The fragment serialisation of an element: its children in order. *)
Definition serialize_element (e : node) : string :=
  match e with
  | Element t _ kids =>
      fold_right (fun k acc => serialize_node t k +:+ acc) EmptyString kids
  | _ => EmptyString
  end.

(** *** Tokenizer *)

Inductive token :=
| TChar (c : ascii)
| TStartTag (name : string) (attrs : list (string * string)) (self_closing : bool)
| TEndTag (name : string)
| TComment (data : string).

(** A tag token under construction. *)
Record tag := {
  tag_end : bool;
  tag_name : string;
  tag_attrs : list (string * string)
}.

Definition new_tag (is_end : bool) (c : ascii) : tag :=
  {| tag_end := is_end; tag_name := String (to_lower c) EmptyString; tag_attrs := [] |}.

Definition tag_snoc (tg : tag) (c : ascii) : tag :=
  {| tag_end := tag_end tg; tag_name := snoc (tag_name tg) (to_lower c);
     tag_attrs := tag_attrs tg |}.

(** A finished attribute joins the tag unless its name is already there. *)
Definition commit (tg : tag) (name value : string) : tag :=
  match getAttribute name (tag_attrs tg) with
  | Some _ => tg
  | None => {| tag_end := tag_end tg; tag_name := tag_name tg;
               tag_attrs := (tag_attrs tg ++ [(name, value)])%list |}
  end.

Definition emit_tag (tg : tag) (self_closing : bool) : list token :=
  if tag_end tg then [TEndTag (tag_name tg)]
  else [TStartTag (tag_name tg) (tag_attrs tg) self_closing].

Inductive quoting := DoubleQuoted | SingleQuoted | Unquoted.

(** Where a character reference returns to. *)
Inductive return_state :=
| RData
| RAttrValue (q : quoting) (tg : tag) (name value : string).

Inductive tstate :=
| SData
| STagOpen
| SEndTagOpen
| STagName (tg : tag)
| SBeforeAttrName (tg : tag)
| SAttrName (tg : tag) (name : string)
| SAfterAttrName (tg : tag) (name : string)
| SBeforeAttrValue (tg : tag) (name : string)
| SAttrValue (q : quoting) (tg : tag) (name value : string)
| SAfterAttrValueQuoted (tg : tag)
| SSelfClosing (tg : tag)
| SBogusComment (data : string)
| SMarkupDecl
| SMarkupDeclDash
| SCommentStart
| SCommentStartDash
| SComment (data : string)
| SCommentEndDash (data : string)
| SCommentEnd (data : string)
| SCommentEndBang (data : string)
| SCharRef (ret : return_state) (name : string).

Definition is_html_space (c : ascii) : bool :=
  match nat_of_ascii c with
  | 9 | 10 | 12 | 32 => true
  | _ => false
  end.

Definition data_step (c : ascii) : tstate * list token :=
  if Ascii.eqb c "&" then (SCharRef RData EmptyString, [])
  else if Ascii.eqb c "<" then (STagOpen, [])
  else (SData, [TChar c]).

Definition bogus_comment_step (d : string) (c : ascii) : tstate * list token :=
  if Ascii.eqb c ">" then (SData, [TComment d]) else (SBogusComment (snoc d c), []).

Definition comment_step (d : string) (c : ascii) : tstate * list token :=
  if Ascii.eqb c "-" then (SCommentEndDash d, []) else (SComment (snoc d c), []).

Definition after_attr_name_step (tg : tag) (name : string) (c : ascii)
  : tstate * list token :=
  if is_html_space c then (SAfterAttrName tg name, [])
  else if Ascii.eqb c "/" then (SSelfClosing (commit tg name EmptyString), [])
  else if Ascii.eqb c "=" then (SBeforeAttrValue tg name, [])
  else if Ascii.eqb c ">" then (SData, emit_tag (commit tg name EmptyString) false)
  else (SAttrName (commit tg name EmptyString) (String (to_lower c) EmptyString), []).

Definition attr_name_step (tg : tag) (name : string) (c : ascii)
  : tstate * list token :=
  if (is_html_space c || Ascii.eqb c "/" || Ascii.eqb c ">")%bool
  then after_attr_name_step tg name c
  else if Ascii.eqb c "=" then (SBeforeAttrValue tg name, [])
  else (SAttrName tg (snoc name (to_lower c)), []).

Definition before_attr_name_step (tg : tag) (c : ascii) : tstate * list token :=
  if is_html_space c then (SBeforeAttrName tg, [])
  else if Ascii.eqb c "/" then (SSelfClosing tg, [])
  else if Ascii.eqb c ">" then (SData, emit_tag tg false)
  else if Ascii.eqb c "=" then (SAttrName tg "=", [])
  else attr_name_step tg EmptyString c.

Definition attr_value_step (q : quoting) (tg : tag) (name value : string) (c : ascii)
  : tstate * list token :=
  if Ascii.eqb c "&" then (SCharRef (RAttrValue q tg name value) EmptyString, [])
  else match q with
       | DoubleQuoted =>
           if Ascii.eqb c dquote then (SAfterAttrValueQuoted (commit tg name value), [])
           else (SAttrValue q tg name (snoc value c), [])
       | SingleQuoted =>
           if Ascii.eqb c "'" then (SAfterAttrValueQuoted (commit tg name value), [])
           else (SAttrValue q tg name (snoc value c), [])
       | Unquoted =>
           if is_html_space c then (SBeforeAttrName (commit tg name value), [])
           else if Ascii.eqb c ">" then (SData, emit_tag (commit tg name value) false)
           else (SAttrValue q tg name (snoc value c), [])
       end.

(** The named character references of the engine. *)
Definition named_reference (name : string) : option ascii :=
  if String.eqb name "amp" then Some "&"%char
  else if String.eqb name "lt" then Some "<"%char
  else if String.eqb name "gt" then Some ">"%char
  else if String.eqb name "quot" then Some dquote
  else if String.eqb name "nbsp" then Some nbsp
  else None.

(** Giving characters back to the state a reference was met in. *)
Definition flush (ret : return_state) (s : string) : tstate * list token :=
  match ret with
  | RData => (SData, map TChar (list_ascii_of_string s))
  | RAttrValue q tg name value => (SAttrValue q tg name (value +:+ s), [])
  end.

(** All states but the character reference state. *)
Definition plain_step (st : tstate) (c : ascii) : tstate * list token :=
  match st with
  | SData => data_step c
  | STagOpen =>
      if Ascii.eqb c "!" then (SMarkupDecl, [])
      else if Ascii.eqb c "/" then (SEndTagOpen, [])
      else if is_alpha c then (STagName (new_tag false c), [])
      else if Ascii.eqb c "?" then (SBogusComment "?", [])
      else let (st', out) := data_step c in (st', TChar "<" :: out)
  | SEndTagOpen =>
      if is_alpha c then (STagName (new_tag true c), [])
      else if Ascii.eqb c ">" then (SData, [])
      else (SBogusComment (String c EmptyString), [])
  | STagName tg =>
      if is_html_space c then (SBeforeAttrName tg, [])
      else if Ascii.eqb c "/" then (SSelfClosing tg, [])
      else if Ascii.eqb c ">" then (SData, emit_tag tg false)
      else (STagName (tag_snoc tg c), [])
  | SBeforeAttrName tg => before_attr_name_step tg c
  | SAttrName tg name => attr_name_step tg name c
  | SAfterAttrName tg name => after_attr_name_step tg name c
  | SBeforeAttrValue tg name =>
      if is_html_space c then (SBeforeAttrValue tg name, [])
      else if Ascii.eqb c dquote then (SAttrValue DoubleQuoted tg name EmptyString, [])
      else if Ascii.eqb c "'" then (SAttrValue SingleQuoted tg name EmptyString, [])
      else if Ascii.eqb c ">" then (SData, emit_tag (commit tg name EmptyString) false)
      else attr_value_step Unquoted tg name EmptyString c
  | SAttrValue q tg name value => attr_value_step q tg name value c
  | SAfterAttrValueQuoted tg => before_attr_name_step tg c
  | SSelfClosing tg =>
      if Ascii.eqb c ">" then (SData, emit_tag tg true)
      else before_attr_name_step tg c
  | SBogusComment d => bogus_comment_step d c
  | SMarkupDecl =>
      if Ascii.eqb c "-" then (SMarkupDeclDash, [])
      else bogus_comment_step EmptyString c
  | SMarkupDeclDash =>
      if Ascii.eqb c "-" then (SCommentStart, [])
      else bogus_comment_step "-" c
  | SCommentStart =>
      if Ascii.eqb c "-" then (SCommentStartDash, [])
      else if Ascii.eqb c ">" then (SData, [TComment EmptyString])
      else comment_step EmptyString c
  | SCommentStartDash =>
      if Ascii.eqb c "-" then (SCommentEnd EmptyString, [])
      else if Ascii.eqb c ">" then (SData, [TComment EmptyString])
      else comment_step "-" c
  | SComment d => comment_step d c
  | SCommentEndDash d =>
      if Ascii.eqb c "-" then (SCommentEnd d, [])
      else comment_step (snoc d "-") c
  | SCommentEnd d =>
      if Ascii.eqb c ">" then (SData, [TComment d])
      else if Ascii.eqb c "!" then (SCommentEndBang d, [])
      else if Ascii.eqb c "-" then (SCommentEnd (snoc d "-"), [])
      else comment_step (d +:+ "--") c
  | SCommentEndBang d =>
      if Ascii.eqb c "-" then (SCommentEndDash (d +:+ "--!"), [])
      else if Ascii.eqb c ">" then (SData, [TComment d])
      else comment_step (d +:+ "--!") c
  | SCharRef _ _ => (st, [])
  end.

Definition tokenizer_step (st : tstate) (c : ascii) : tstate * list token :=
  match st with
  | SCharRef ret name =>
      if is_alnum c then (SCharRef ret (snoc name c), [])
      else if Ascii.eqb c ";" then
        match named_reference name with
        | Some d => flush ret (String d EmptyString)
        | None => flush ret ("&" +:+ name +:+ ";")
        end
      else
        let (st1, out1) := flush ret ("&" +:+ name) in
        let (st2, out2) := plain_step st1 c in
        (st2, (out1 ++ out2)%list)
  | _ => plain_step st c
  end.

(** What the tokenizer emits when the input ends in state [st]. *)
Definition tokenizer_eof (st : tstate) : list token :=
  match st with
  | STagOpen => [TChar "<"]
  | SEndTagOpen => [TChar "<"; TChar "/"]
  | SBogusComment d | SComment d | SCommentEndDash d | SCommentEnd d
  | SCommentEndBang d => [TComment d]
  | SMarkupDecl | SCommentStart | SCommentStartDash => [TComment EmptyString]
  | SMarkupDeclDash => [TComment "-"]
  | SCharRef RData name => map TChar (list_ascii_of_string ("&" +:+ name))
  | _ => []
  end.

Fixpoint tokenize_from (st : tstate) (s : string) : list token :=
  match s with
  | EmptyString => tokenizer_eof st
  | String c rest =>
      let (st', out) := tokenizer_step st c in
      (out ++ tokenize_from st' rest)%list
  end.

(** Input stream preprocessing: CR LF and lone CR become LF. *)
Fixpoint normalize_newlines (s : string) : string :=
  match s with
  | EmptyString => EmptyString
  | String c rest =>
      if Ascii.eqb c carriage_return then
        match rest with
        | String c' rest' =>
            if Ascii.eqb c' newline then String newline (normalize_newlines rest')
            else String newline (normalize_newlines rest)
        | EmptyString => String newline EmptyString
        end
      else String c (normalize_newlines rest)
  end.

Definition tokenize (s : string) : list token :=
  tokenize_from SData (normalize_newlines s).

(** *** Tree construction *)

(** An open element: its name, attributes and the children appended so
    far, last first. *)
Record frame := {
  frame_name : string;
  frame_attrs : list (string * string);
  frame_kids : list node
}.

(** The stack of open elements, innermost first, above the children of
    the fragment's root, last first. *)
Record builder := {
  open_elements : list frame;
  root_kids : list node
}.

Definition append_child (n : node) (b : builder) : builder :=
  match open_elements b with
  | [] => {| open_elements := []; root_kids := n :: root_kids b |}
  | f :: fs =>
      {| open_elements :=
           {| frame_name := frame_name f; frame_attrs := frame_attrs f;
              frame_kids := n :: frame_kids f |} :: fs;
         root_kids := root_kids b |}
  end.

(** Inserting a character: it joins a text node that is the last child. *)
Definition append_char (c : ascii) (kids : list node) : list node :=
  match kids with
  | Text d :: rest => Text (snoc d c) :: rest
  | _ => Text (String c EmptyString) :: kids
  end.

Definition insert_character (c : ascii) (b : builder) : builder :=
  match open_elements b with
  | [] => {| open_elements := []; root_kids := append_char c (root_kids b) |}
  | f :: fs =>
      {| open_elements :=
           {| frame_name := frame_name f; frame_attrs := frame_attrs f;
              frame_kids := append_char c (frame_kids f) |} :: fs;
         root_kids := root_kids b |}
  end.

Definition close_frame (f : frame) : node :=
  Element (frame_name f) (frame_attrs f) (rev (frame_kids f)).

(** Popping the current node off the stack. *)
Definition pop_element (b : builder) : builder :=
  match open_elements b with
  | [] => b
  | f :: fs =>
      append_child (close_frame f) {| open_elements := fs; root_kids := root_kids b |}
  end.

(** Popping up to and including the innermost open element [name]. *)
Fixpoint pop_until (name : string) (fuel : list frame) (b : builder) : builder :=
  match fuel with
  | [] => b
  | f :: rest =>
      if String.eqb (frame_name f) name then pop_element b
      else pop_until name rest (pop_element b)
  end.

Definition is_open (name : string) (b : builder) : bool :=
  existsb (fun f => String.eqb (frame_name f) name) (open_elements b).

(** Start tags the body rules ignore; the table insertion modes, in
    which some of them open elements, are outside the scope. *)
Definition ignored_start_tags : list string :=
  ["html"; "body"; "head"; "frameset"; "frame"; "caption"; "col"; "colgroup";
   "tbody"; "td"; "tfoot"; "th"; "thead"; "tr"].

Definition build_step (b : builder) (t : token) : builder :=
  match t with
  | TChar c => insert_character c b
  | TComment d => append_child (Comment d) b
  | TStartTag name attrs _ =>
      if mem_string name ignored_start_tags then b
      else if mem_string name void_elements
      then append_child (Element name attrs []) b
      else {| open_elements :=
                {| frame_name := name; frame_attrs := attrs; frame_kids := [] |}
                  :: open_elements b;
              root_kids := root_kids b |}
  | TEndTag name =>
      if String.eqb name "br" then append_child (Element "br" [] []) b
      else if is_open name b then pop_until name (open_elements b) b
      else if String.eqb name "p" then append_child (Element "p" [] []) b
      else b
  end.

(** At the end of the input every open element is closed. *)
Fixpoint close_all (fuel : list frame) (b : builder) : builder :=
  match fuel with
  | [] => b
  | _ :: rest => close_all rest (pop_element b)
  end.

(** A line feed that is the next token after a [pre] or [listing] start
    tag is dropped. *)
Definition newline_dropping_tags : list string := ["pre"; "listing"].

Fixpoint drop_newline_after_pre (ts : list token) : list token :=
  match ts with
  | [] => []
  | t :: rest =>
      t :: match t, rest with
           | TStartTag name _ _, TChar c :: rest' =>
               if (mem_string name newline_dropping_tags && Ascii.eqb c newline)%bool
               then drop_newline_after_pre rest'
               else drop_newline_after_pre rest
           | _, _ => drop_newline_after_pre rest
           end
  end.

Definition build (ts : list token) : list node :=
  let b := fold_left build_step (drop_newline_after_pre ts)
                     {| open_elements := []; root_kids := [] |} in
  rev (root_kids (close_all (open_elements b) b)).

(** The fragment parser: markup set on a raw text element becomes one
    text node, any other context is tokenized and built. *)
Definition parse_html_fragment (context : node) (markup : string) : list node :=
  match context with
  | Element t _ _ =>
      if mem_string t raw_text_elements
      then (if String.eqb markup EmptyString then [] else [Text markup])
      else build (tokenize markup)
  | _ => []
  end.

Definition reference_engine : HtmlEngine := {|
  serialize_fragment := serialize_element;
  parse_fragment := parse_html_fragment
|}.

(** ** DOM operations of the decorator patterns *)

(** [document.createElement(tag)]. *)
Definition createElement (tag : string) : node := Element tag [] [].

(** [parent.append(child)]. *)
Definition append (child : node) (parent : node) : node :=
  replaceChildren parent (childNodes parent ++ [child])%list.

(** [e.textContent = s]: every child goes, and a text node holding [s]
    comes unless [s] is empty. *)
Definition set_textContent (s : string) (e : node) : node :=
  replaceChildren e (if String.eqb s EmptyString then [] else [Text s]).

(** [e.dataset.source] of an element: the [data-source] attribute, or
    [undefined].  Only an element has a [dataset]; [decorate_async]
    throws before it reads the source of anything else. *)
Definition dataset_source (e : node) : option string :=
  match e with
  | Element _ a _ => getAttribute "data-source" a
  | _ => None
  end.

(** ** The list-based block pattern (docs/explanation/block-system.md) *)

Section ListBlock.
Context {engine : HtmlEngine}.

(** One turn of the [forEach]: a new [li] receives the row's markup
    and is appended to [ul]. *)
Definition add_row (ul : node) (row : node) : node :=
  let li := createElement "li" in
  let li := set_innerHTML (innerHTML row) li in
  append li ul.

(** [decorate(block)]; spreading the [children] of something that is
    not an element throws. *)
Definition decorate_list (block : node) : completion node :=
  match block with
  | Element _ _ _ =>
      let ul := createElement "ul" in
      let ul := fold_left add_row (element_children block) ul in
      let block := set_textContent EmptyString block in
      Normal (append ul block)
  | _ => Throw (TypeError "block.children is not iterable")
  end.
End ListBlock.

(** ** The asynchronous data loading pattern
       (docs/explanation/block-system.md) *)

(** The state the decorator runs in: the block it was given and the
    requests sent to the network so far, oldest first. *)
Record page := {
  block_of : node;
  requests : list (option string)
}.

(** Computations that read and write the page and may throw. *)
Definition js (A : Type) : Type := page -> completion A * page.

Definition ret {A} (a : A) : js A := fun s => (Normal a, s).

Definition bind {A B} (m : js A) (k : A -> js B) : js B :=
  fun s =>
    match m s with
    | (Normal a, s') => k a s'
    | (Throw e, s') => (Throw e, s')
    end.

(** [try { body } catch (error) { handler }]. *)
Definition try_catch {A} (body : js A) (handler : exn -> js A) : js A :=
  fun s =>
    match body s with
    | (Normal a, s') => (Normal a, s')
    | (Throw e, s') => handler e s'
    end.

Notation "'let*' x := m 'in' k" := (bind m (fun x => k))
  (at level 10, x name, m at level 100, k at level 200).

Section AsyncBlock.
(** The world outside the snippet: what the network answers to a
    request, what [response.json()] gives, and the [renderData] the
    snippet calls, which leaves a block behind and may throw. *)
Context {response data : Type}.
Variable network : option string -> completion response.
Variable json : response -> completion data.
Variable renderData : node -> data -> node * option exn.

(** [await fetch(url)]: the request is sent, then the promise settles. *)
Definition fetch (url : option string) : js response :=
  fun s => (network url,
            {| block_of := block_of s; requests := (requests s ++ [url])%list |}).

(** [await response.json()]. *)
Definition response_json (r : response) : js data :=
  fun s => (json r, s).

Definition call_renderData (d : data) : js unit :=
  fun s =>
    let (b, thrown) := renderData (block_of s) d in
    (match thrown with Some e => Throw e | None => Normal tt end,
     {| block_of := b; requests := requests s |}).

Definition assign_textContent (text : string) : js unit :=
  fun s => (Normal tt,
            {| block_of := set_textContent text (block_of s);
               requests := requests s |}).

(** [decorate(block)] of the pattern.  A node that is no element has no
    [dataset]: reading [block.dataset.source] throws, before the [try]
    and before any request. *)
Definition decorate_async : js unit :=
  fun s =>
    match block_of s with
    | Element _ _ _ =>
        let dataUrl := dataset_source (block_of s) in
        try_catch
          (let* response := fetch dataUrl in
           let* data := response_json response in
           call_renderData data)
          (fun error => assign_textContent "Failed to load content") s
    | _ => (Throw (TypeError "block.dataset is undefined"), s)
    end.
End AsyncBlock.

(** ** The page bootstrap (docs/reference/scripts-api.md)

    JavaScript as the event loop sees it: a piece of code performs
    effects, registers timers and suspends at an [await]; a suspended
    continuation is resumed by a later turn of the loop, a timer fires
    once its deadline has passed. *)

Inductive proc (E : Type) :=
| Done
| Fail
| Act (e : E) (k : proc E)
| Await (k : proc E)
| SetTimeout (callback : proc E) (delay : nat) (k : proc E).
Arguments Done {E}.
Arguments Fail {E}.
Arguments Act {E} e k.
Arguments Await {E} k.
Arguments SetTimeout {E} callback delay k.

(** Sequential composition; a failure skips what follows. *)
Fixpoint seq {E} (p q : proc E) : proc E :=
  match p with
  | Done => q
  | Fail => Fail
  | Act e k => Act e (seq k q)
  | Await k => Await (seq k q)
  | SetTimeout cb d k => SetTimeout cb d (seq k q)
  end.

Record loop (E : Type) := {
  now : nat;
  suspended : list (proc E);
  timers : list (nat * proc E);
  trace : list (nat * E)
}.
Arguments now {E} l.
Arguments suspended {E} l.
Arguments timers {E} l.
Arguments trace {E} l.

(** Running code until it ends or suspends. *)
Fixpoint run {E} (p : proc E) (s : loop E) : loop E :=
  match p with
  | Done | Fail => s
  | Act e k =>
      run k {| now := now s; suspended := suspended s; timers := timers s;
               trace := (trace s ++ [(now s, e)])%list |}
  | Await k =>
      {| now := now s; suspended := k :: suspended s; timers := timers s;
         trace := trace s |}
  | SetTimeout cb d k =>
      run k {| now := now s; suspended := suspended s;
               timers := (now s + d, cb) :: timers s; trace := trace s |}
  end.

(** A turn of the loop: some suspended continuation is resumed, some due
    timer fires, or time passes. *)
Inductive turn {E} : loop E -> loop E -> Prop :=
| turn_resume s k l1 l2 :
    suspended s = (l1 ++ k :: l2)%list ->
    turn s (run k {| now := now s; suspended := (l1 ++ l2)%list;
                     timers := timers s; trace := trace s |})
| turn_timer s t cb l1 l2 :
    timers s = (l1 ++ (t, cb) :: l2)%list ->
    t <= now s ->
    turn s (run cb {| now := now s; suspended := suspended s;
                      timers := (l1 ++ l2)%list; trace := trace s |})
| turn_tick s :
    turn s {| now := S (now s); suspended := suspended s;
              timers := timers s; trace := trace s |}.

Inductive phase := Eager | Lazy | Delayed.

(** What the bootstrap shows of itself: the start and the completion of
    each loading function, the style sheet and the module it asks for;
    [Internal] is what the bodies of [loadEager] and [loadLazy] do. *)
Inductive event (E : Type) :=
| Start (f : phase)
| Finish (f : phase)
| LoadCSS (href : string)
| Import (specifier : string)
| Internal (e : E).
Arguments Start {E} f.
Arguments Finish {E} f.
Arguments LoadCSS {E} href.
Arguments Import {E} specifier.
Arguments Internal {E} e.

Fixpoint lift {E} (p : proc E) : proc (event E) :=
  match p with
  | Done => Done
  | Fail => Fail
  | Act e k => Act (Internal e) (lift k)
  | Await k => Await (lift k)
  | SetTimeout cb d k => SetTimeout (lift cb) d (lift k)
  end.

Definition is_internal {E} (e : event E) : bool :=
  match e with Internal _ => true | _ => false end.

(** The trace without times and internal events. *)
Definition observable {E} (tr : list (nat * event E)) : list (event E) :=
  List.filter (fun e => negb (is_internal e)) (map snd tr).

Section Bootstrap.
Context {E : Type}.
(** [window.hlx.codeBasePath], and what [loadEager(document)] and
    [loadLazy(document)] do until their promises settle. *)
Variable codeBasePath : string.
Variables loadEager_body loadLazy_body : proc E.

(** A call of a loading function, from its start to its completion. *)
Definition call (f : phase) (body : proc (event E)) : proc (event E) :=
  Act (Start f) (seq body (Act (Finish f) Done)).

(** [await p]: the caller resumes in a later turn, after [p] is over. *)
Definition await (p : proc (event E)) : proc (event E) := seq p (Await Done).

Definition loadEager : proc (event E) := call Eager (lift loadEager_body).
Definition loadLazy : proc (event E) := call Lazy (lift loadLazy_body).

(** [() => import('./delayed.js')]. *)
Definition import_delayed : proc (event E) := Act (Import "./delayed.js") Done.

Definition loadDelayed : proc (event E) :=
  call Delayed
    (SetTimeout import_delayed 3000
       (Act (LoadCSS (codeBasePath +:+ "/styles/delayed.css")) Done)).

(** The [DOMContentLoaded] listener. *)
Definition on_DOMContentLoaded : proc (event E) :=
  seq (await loadEager) (seq (await loadLazy) loadDelayed).

(** The loop when the listener has been called at time [t0]. *)
Definition page_load (t0 : nat) : loop (event E) :=
  run on_DOMContentLoaded
      {| now := t0; suspended := []; timers := []; trace := [] |}.

(** The fixed order of the bootstrap. *)
Definition phase_order : list (event E) :=
  [Start Eager; Finish Eager; Start Lazy; Finish Lazy; Start Delayed;
   LoadCSS (codeBasePath +:+ "/styles/delayed.css"); Finish Delayed;
   Import "./delayed.js"].
End Bootstrap.

(** ** Helpers of scripts/aem.js *)

Definition hyphen : ascii := "-"%char.

(** A character of a class name: a lower-case letter or a digit. *)
Definition is_name_char (c : ascii) : bool := (is_lower c || is_digit c)%bool.

Fixpoint lowercase (s : string) : string :=
  match s with
  | EmptyString => EmptyString
  | String c rest => String (to_lower c) (lowercase rest)
  end.

(** Every character that is no letter and no digit becomes a hyphen. *)
Fixpoint hyphenate (s : string) : string :=
  match s with
  | EmptyString => EmptyString
  | String c rest =>
      String (if is_name_char c then c else hyphen) (hyphenate rest)
  end.

(** A run of hyphens becomes one hyphen. *)
Fixpoint squeeze (s : string) : string :=
  match s with
  | EmptyString => EmptyString
  | String c rest =>
      match rest with
      | String c' _ =>
          if (Ascii.eqb c hyphen && Ascii.eqb c' hyphen)%bool then squeeze rest
          else String c (squeeze rest)
      | EmptyString => String c EmptyString
      end
  end.

Definition strip_leading_hyphen (s : string) : string :=
  match s with
  | String c rest => if Ascii.eqb c hyphen then rest else s
  | EmptyString => EmptyString
  end.

Fixpoint strip_trailing_hyphen (s : string) : string :=
  match s with
  | EmptyString => EmptyString
  | String c EmptyString => if Ascii.eqb c hyphen then EmptyString else s
  | String c rest => String c (strip_trailing_hyphen rest)
  end.

(** Modelled from the spec: [scripts/aem.js] is not among the sources, so
    [toClassName] is the string sanitizer of its API reference, which
    "converts a string to a valid CSS class name", returns a "sanitized
    class name in kebab-case" and maps ['My Block Name'] to
    ['my-block-name'], ['Hello  World!!!'] to ['hello-world'] and
    ['100% Awesome'] to ['100-awesome']: letters are lower-cased, what is
    no letter and no digit separates words, the words are joined by
    single hyphens.  For an input without a letter or a digit the
    reference gives no value; the result of this definition there is
    not a documented one, and nothing below is stated about it. *)
Definition toClassName (name : string) : string :=
  strip_trailing_hyphen (strip_leading_hyphen (squeeze (hyphenate (lowercase name)))).

(** The shape of a class name in kebab-case: words of lower-case letters
    and digits, at least one, joined by single hyphens. *)
Fixpoint kebab_words (after_hyphen : bool) (s : string) : bool :=
  match s with
  | EmptyString => negb after_hyphen
  | String c rest =>
      if Ascii.eqb c hyphen then (negb after_hyphen && kebab_words true rest)%bool
      else (is_name_char c && kebab_words false rest)%bool
  end.

Definition is_kebab_case (s : string) : bool := kebab_words true s.

(** Whether a string holds a letter or a digit of ASCII. *)
Fixpoint has_alnum (s : string) : bool :=
  match s with
  | EmptyString => false
  | String c rest => (is_alnum c || has_alnum rest)%bool
  end.

(** A configuration value: a string, or an array of strings. *)
Inductive config_value :=
| VString (s : string)
| VArray (l : list string).

Definition attribute_or_empty (name : string) (e : node) : string :=
  match e with
  | Element _ a _ => default EmptyString (getAttribute name a)
  | _ => EmptyString
  end.

(** One value is a string, several are an array. *)
Definition one_or_many (l : list string) : config_value :=
  match l with
  | [v] => VString v
  | _ => VArray l
  end.

(** The value of a cell: the [href] of its links if it has any, else
    the [src] of its images if it has any, else its text. *)
Definition cell_value (cell : node) : config_value :=
  match querySelectorAll (TypeSel "a") cell with
  | (_ :: _) as links => one_or_many (map (attribute_or_empty "href") links)
  | [] =>
      match querySelectorAll (TypeSel "img") cell with
      | (_ :: _) as images => one_or_many (map (attribute_or_empty "src") images)
      | [] => VString (textContent cell)
      end
  end.

(** A row with a key cell and a value cell sets one key of the object. *)
Definition read_row (config : gmap string config_value) (row : node)
  : gmap string config_value :=
  match element_children row with
  | key :: value :: _ => <[toClassName (textContent key) := cell_value value]> config
  | _ => config
  end.

(** Modelled from the spec: [scripts/aem.js] is not among the sources, so
    [readBlockConfig] follows its API reference: it "extracts
    configuration from a block's key-value pairs" into a configuration
    object, a row [| Title | My Page Title |] giving the key [title];
    "Links: Extracts href attribute(s)", "Images: Extracts src
    attribute(s)", "Multiple values: Returns array". *)
Definition readBlockConfig (block : node) : gmap string config_value :=
  fold_left read_row (element_children block) ∅.

(** ** Tree order and first matches *)

(** Induction on a node with the hypothesis for every child. *)
Fixpoint node_ind (P : node -> Prop)
  (HText : forall d, P (Text d))
  (HComment : forall d, P (Comment d))
  (HElement : forall t a kids, Forall P kids -> P (Element t a kids))
  (n : node) {struct n} : P n :=
  match n with
  | Text d => HText d
  | Comment d => HComment d
  | Element t a kids =>
      HElement t a kids
        ((fix all (l : list node) : Forall P l :=
            match l with
            | [] => @List.Forall_nil node P
            | k :: rest =>
                @List.Forall_cons node P k rest
                  (node_ind P HText HComment HElement k) (all rest)
            end) kids)
  end.

(** Tree order on paths: an ancestor comes before its descendants, an
    earlier sibling's subtree before a later sibling's. *)
Fixpoint path_lt (q p : path) : bool :=
  match q, p with
  | [], [] => false
  | [], _ :: _ => true
  | _ :: _, [] => false
  | i :: q', j :: p' => ((i <? j)%nat || ((i =? j)%nat && path_lt q' p'))%bool
  end.

(** [e], at path [p] below [n], is the first element below [n] in tree
    order that matches [sel]. *)
Definition first_match (sel : selector) (n : node) (p : path) (e : node) : Prop :=
  p <> [] /\ get_node p n = Some e /\ matches sel e = true /\
  forall q e', q <> [] -> get_node q n = Some e' -> matches sel e' = true ->
               path_lt q p = false.

(** No element below [n] matches [sel]. *)
Definition none_below (sel : selector) (n : node) : Prop :=
  forall q e, q <> [] -> get_node q n = Some e -> matches sel e = false.

(** The search through a list of siblings, the first of index [i]. *)
Fixpoint first_in (sel : selector) (i : nat) (l : list node) : option (path * node) :=
  match l with
  | [] => None
  | k :: rest =>
      if matches sel k then Some ([i], k)
      else match querySelector sel k with
           | Some (p, e) => Some (i :: p, e)
           | None => first_in sel (S i) rest
           end
  end.


(** What [querySelector] answers, said on the tree. *)
Definition query_correct (sel : selector) (n : node) : Prop :=
  match querySelector sel n with
  | Some (p, e) => first_match sel n p e
  | None => none_below sel n
  end.


(** ** Vocabulary of the statements about the hero script *)

(** The data of the text nodes among [kids], in order. *)
Definition direct_text (kids : list node) : list string :=
  omap (fun n => match n with Text d => Some d | _ => None end) kids.


(** Only white space. *)
Fixpoint all_whitespace (s : string) : bool :=
  match s with
  | EmptyString => true
  | String c rest => (is_js_whitespace c && all_whitespace rest)%bool
  end.

Definition starts_with_whitespace (s : string) : bool :=
  match s with
  | String c _ => is_js_whitespace c
  | EmptyString => false
  end.

Fixpoint ends_with_whitespace (s : string) : bool :=
  match s with
  | EmptyString => false
  | String c EmptyString => is_js_whitespace c
  | String _ rest => ends_with_whitespace rest
  end.

Definition is_nrt (c : ascii) : bool :=
  (Ascii.eqb c newline || Ascii.eqb c carriage_return || Ascii.eqb c tab)%bool.


(** [q] lies strictly below [p]. *)
Definition strictly_below (p q : path) : Prop := p `prefix_of` q /\ p <> q.

(** [d'] differs from [d] at most below the node at [p]: every other
    node is there with the same name, attributes or data, and the
    subtrees beside the branch of [p] are the same. *)
Definition same_outside (p : path) (d d' : node) : Prop :=
  (forall q, ~ strictly_below p q ->
             label_of <$> get_node q d' = label_of <$> get_node q d) /\
  (forall q, ~ p `prefix_of` q -> ~ q `prefix_of` p ->
             get_node q d' = get_node q d).

(** A page around the children of one hero heading. *)
Definition hero_block (h1_kids : list node) : node :=
  Element "div" [("class", "hero block")]
    [Element "div" [] [Element "div" [] [Element "h1" [] h1_kids]]].

Definition page_of (blocks : list node) : node :=
  Element "#document" []
    [Element "html" []
       [Element "head" [] [Element "title" [] [Text "FeDX"]];
        Element "body" [] [Element "main" [] [Element "div" [] blocks]]]].

Definition page_FeDDXX : node := page_of [hero_block [Text "FeDDXX"]].
Definition page_FeDXDDXX : node := page_of [hero_block [Text "FeDXDDXX"]].
Definition page_two_heroes : node :=
  page_of [hero_block [Text "FeDX one"]; hero_block [Text "FeDX two"]].
Definition page_picture : node :=
  page_of [hero_block [Element "picture" [] [Element "img" [("alt", "FeDX")] []];
                       Text "Welcome"]].
Definition page_without_hero : node :=
  page_of [Element "div" [("class", "cards block")] [Element "h1" [] [Text "FeDX"]]].

Definition dx (kids : list node) : node := Element "span" [("class", "dx")] kids.

(** Running the hero script a second time on what the first run left. *)
Definition hero_js_twice {engine : HtmlEngine} (doc : node) : completion node :=
  match hero_js doc with
  | Normal doc' => hero_js doc'
  | Throw e => Throw e
  end.

(** ** Vocabulary of the statements about the decorator patterns *)

(** The list item the list-based decorator makes of a row. *)
Definition li_of_row {engine : HtmlEngine} (row : node) : node :=
  Element "li" [] (parse_fragment (createElement "li") (innerHTML row)).

(** A block of two rows, and a network that is down. *)
Definition two_row_block : node :=
  Element "div" [("class", "cards block")]
    [Text " ";
     Element "div" [] [Element "div" [] [Text "Content for card 1"]];
     Comment "separator";
     Element "div" [] [Element "div" [] [Element "b" [] [Text "Content"];
                                         Text " for card 2"]]].

Definition data_block : node :=
  Element "div" [("class", "feed block"); ("data-source", "/feed.json")]
    [Element "div" [] [Text "loading"]].

Definition network_down (url : option string) : completion nat :=
  Throw (NetworkError "Failed to fetch").

(** ** Vocabulary of the statements about the helpers *)

(** Only letters, digits and hyphens. *)
Fixpoint name_chars_or_hyphens (s : string) : bool :=
  match s with
  | EmptyString => true
  | String c rest =>
      ((is_name_char c || Ascii.eqb c hyphen) && name_chars_or_hyphens rest)%bool
  end.

(** No hyphen next to a hyphen. *)
Fixpoint no_double_hyphen (s : string) : bool :=
  match s with
  | EmptyString => true
  | String c rest =>
      match rest with
      | String c' _ =>
          (negb (Ascii.eqb c hyphen && Ascii.eqb c' hyphen) && no_double_hyphen rest)%bool
      | EmptyString => true
      end
  end.

Fixpoint has_name_char (s : string) : bool :=
  match s with
  | EmptyString => false
  | String c rest => (is_name_char c || has_name_char rest)%bool
  end.

(** The key and the value a row contributes, if it has two cells. *)
Definition row_entry (row : node) : option (string * config_value) :=
  match element_children row with
  | key :: value :: _ => Some (toClassName (textContent key), cell_value value)
  | _ => None
  end.

Definition text_cell (text : string) : node := Element "div" [] [Text text].

Definition config_row (key : string) (value : node) : node :=
  Element "div" [] [text_cell key; value].

(** The block of the API reference. *)
Definition my_block : node :=
  Element "div" [("class", "my-block block")]
    [config_row "Title" (text_cell "My Page Title");
     config_row "Columns" (text_cell "3");
     config_row "URL" (text_cell "https://example.com")].

(** A block with a link, an image, two links, and a key set twice. *)
Definition rich_block : node :=
  Element "div" [("class", "my-block block")]
    [config_row "Columns" (text_cell "2");
     config_row "Home Page"
       (Element "div" [] [Element "a" [("href", "/home")] [Text "Home"]]);
     config_row "Poster"
       (Element "div" []
          [Element "picture" [] [Element "img" [("src", "/poster.png")] []]]);
     config_row "See also"
       (Element "div" []
          [Element "a" [("href", "/a")] [Text "A"];
           Element "a" [("href", "/b")] [Text "B"]]);
     config_row "Columns" (text_cell "3")].

Definition starts_with_name_char (s : string) : bool :=
  match s with
  | String c _ => negb (Ascii.eqb c hyphen)
  | EmptyString => false
  end.

(** ** Vocabulary of the statements about the bootstrap *)

(** Code that shows nothing of the loading functions: the bodies of
    [loadEager] and [loadLazy] and the callbacks they register. *)
Definition quiet {E} (p : proc (event E)) : Prop := exists q : proc E, p = lift q.

Definition quiet_timers {E} (tm : list (nat * proc (event E))) : Prop :=
  Forall (fun x => quiet x.2) tm.

Definition internal_only {E} (tr : list (nat * event E)) : Prop :=
  Forall (fun x => is_internal x.2 = true) tr.

(** The module is asked for 3000 ms or more after [loadDelayed] started. *)
Definition import_after_delay {E} (tr : list (nat * event E)) : Prop :=
  forall t, (t, Import "./delayed.js") ∈ tr ->
            exists td, (td, Start Delayed) ∈ tr /\ td + 3000 <= t.

(** A body that does not throw on its way to its end. *)
Inductive succeeds {E} : proc E -> Prop :=
| succeeds_Done : succeeds Done
| succeeds_Act e k : succeeds k -> succeeds (Act e k)
| succeeds_Await k : succeeds k -> succeeds (Await k)
| succeeds_SetTimeout cb d k : succeeds k -> succeeds (SetTimeout cb d k).

Section BootstrapStages.
Context {E : Type}.
Variable codeBasePath : string.
Variables loadEager_body loadLazy_body : proc E.

(** What is left of the listener after each of its two [await]s, and
    what follows the body of each awaited function. *)
Definition after_lazy : proc (event E) := loadDelayed codeBasePath.
Definition rest_lazy : proc (event E) := Act (Finish Lazy) (Await after_lazy).
Definition after_eager : proc (event E) :=
  Act (Start Lazy) (seq (lift loadLazy_body) rest_lazy).
Definition rest_eager : proc (event E) := Act (Finish Eager) (Await after_eager).

(** Where the suspended listener can stand, with what has been shown. *)
Inductive position : proc (event E) -> list (event E) -> Prop :=
| position_eager k :
    position (seq (lift k) rest_eager) [Start Eager]
| position_after_eager :
    position after_eager [Start Eager; Finish Eager]
| position_lazy k :
    position (seq (lift k) rest_lazy) [Start Eager; Finish Eager; Start Lazy]
| position_after_lazy :
    position after_lazy [Start Eager; Finish Eager; Start Lazy; Finish Lazy].

(** The stages of a page load: the listener is suspended at a position;
    or it has ended by a failure of a body; or it has returned and the
    timer of [loadDelayed] is pending; or the timer has fired. *)
Inductive stage :
  list (proc (event E)) -> list (nat * proc (event E)) -> list (nat * event E) -> Prop :=
| stage_listener p obs others susp tm tr :
    position p obs -> susp ≡ₚ p :: others -> Forall quiet others ->
    quiet_timers tm -> observable tr = obs ->
    stage susp tm tr
| stage_failed obs susp tm tr :
    obs = [Start Eager] \/ obs = [Start Eager; Finish Eager; Start Lazy] ->
    Forall quiet susp -> quiet_timers tm -> observable tr = obs ->
    stage susp tm tr
| stage_timer t td others susp tm tr :
    Forall quiet susp -> tm ≡ₚ (t, import_delayed) :: others ->
    quiet_timers others ->
    observable tr = take 7 (phase_order codeBasePath) ->
    (td, Start Delayed) ∈ tr -> td + 3000 <= t ->
    stage susp tm tr
| stage_imported susp tm tr :
    Forall quiet susp -> quiet_timers tm ->
    observable tr = phase_order codeBasePath ->
    import_after_delay tr ->
    stage susp tm tr.

(** The stage of an event loop. *)
Definition loop_stage (s : loop (event E)) : Prop :=
  stage (suspended s) (timers s) (trace s).
End BootstrapStages.

(** A page load whose bodies await once each, the eager one after
    registering a timer of its own. *)
Inductive sample_event := FetchedSection | FiredTimer | LoadedFooter.

Definition sample_eager : proc sample_event :=
  SetTimeout (Act FiredTimer Done) 100 (Await (Act FetchedSection Done)).

Definition sample_lazy : proc sample_event := Await (Act LoadedFooter Done).

(** The end of one run of the sample page load, started at time 0: the
    timer of the eager body fired while [loadLazy] was waiting. *)
Definition sample_end : loop (event sample_event) :=
  {| now := 3100; suspended := []; timers := [];
     trace := [(0, Start Eager); (0, Internal FetchedSection); (0, Finish Eager);
               (0, Start Lazy); (100, Internal FiredTimer);
               (100, Internal LoadedFooter); (100, Finish Lazy);
               (100, Start Delayed); (100, LoadCSS "/styles/delayed.css");
               (100, Finish Delayed); (3100, Import "./delayed.js")] |}.

(** ** Vocabulary of further properties of the hero script *)

(** The number of places of [s] where [DX] stands. *)
Fixpoint occurrences_DX (s : string) : nat :=
  match s with
  | EmptyString => 0
  | String c rest =>
      (if String.prefix "DX" (String c rest) then 1 else 0) + occurrences_DX rest
  end.

(** No character of [s] is a newline, a carriage return or a tab. *)
Fixpoint free_of_nrt (s : string) : bool :=
  match s with
  | EmptyString => true
  | String c rest => (negb (is_nrt c) && free_of_nrt rest)%bool
  end.

(** ** Vocabulary of further properties of the decorator patterns *)

(** A [renderData] that sets a class on the block, renders one
    paragraph and then throws. *)
Definition render_then_throw (b : node) (d : nat) : node * option exn :=
  (match b with
   | Element t a _ =>
       Element t (("data-rendered", "partly") :: a) [Element "p" [] [Text "first item"]]
   | _ => b
   end, Some (TypeError "data.items is undefined")).

Definition network_up (url : option string) : completion nat := Normal 200.

(** ** The interactive block pattern (docs/explanation/block-system.md) *)

(** The ordered set parser keeps the first occurrence of each token. *)
Fixpoint ordered_set (tokens : list string) : list string :=
  match tokens with
  | [] => []
  | x :: rest => x :: List.filter (fun y => negb (String.eqb x y)) (ordered_set rest)
  end.

Definition remove_token (token : string) (set : list string) : list string :=
  List.filter (fun y => negb (String.eqb token y)) set.

(** [Element.setAttribute]: the value of an attribute that is there
    changes in place, a new attribute comes last. *)
Fixpoint setAttribute (name value : string) (attrs : list (string * string))
  : list (string * string) :=
  match attrs with
  | [] => [(name, value)]
  | (k, v) :: rest =>
      if String.eqb k name then (k, value) :: rest
      else (k, v) :: setAttribute name value rest
  end.

(** [e.classList.toggle(token)]: the token leaves the token set if it is
    in it and joins it at the end if not; the [class] attribute becomes
    the tokens of the set joined by single spaces. *)
Definition classList_toggle (token : string) (e : node) : node :=
  match e with
  | Element t a kids =>
      let set := ordered_set (classList a) in
      let set' := if mem_string token set then remove_token token set
                  else (set ++ [token])%list in
      Element t (setAttribute "class" (String.concat " " set') a) kids
  | _ => e
  end.

(** A registered [click] listener: the element it listens on and the
    [content] its closure holds, an element or [null]. *)
Record click_listener := {
  listener_target : path;
  listener_content : option (path * node)
}.

(** [decorate(block)] of the pattern: the listeners it registers. *)
Definition decorate_interactive (block : node) : completion (list click_listener) :=
  let button := querySelector (TypeSel "button") block in
  let content := querySelector (ClassSel "content") block in
  member button
    (fun b => [{| listener_target := fst b; listener_content := content |}]).

(** The listener [() => { content.classList.toggle('expanded'); }] run
    on the block. *)
Definition on_click (l : click_listener) (block : node) : completion node :=
  member (listener_content l)
    (fun c => update_node (classList_toggle "expanded") (fst c) block).

(** [n] clicks, one after the other. *)
Fixpoint clicks (n : nat) (l : click_listener) (block : node) : completion node :=
  match n with
  | 0 => Normal block
  | S n' =>
      match clicks n' l block with
      | Normal b => on_click l b
      | Throw e => Throw e
      end
  end.

(** A class token: not empty, no white space. *)
Fixpoint no_whitespace (s : string) : bool :=
  match s with
  | EmptyString => true
  | String c rest => (negb (is_ascii_whitespace c) && no_whitespace rest)%bool
  end.

Definition is_token (s : string) : bool :=
  (negb (String.eqb s EmptyString) && no_whitespace s)%bool.

(** A block with a button and a content element that has two classes. *)
Definition accordion_content : node :=
  Element "div" [("class", "content  wide"); ("id", "details")]
          [Element "p" [] [Text "Details"]].

Definition accordion_block : node :=
  Element "div" [("class", "accordion block")]
    [Element "div" [] [Element "button" [] [Text "More"]];
     accordion_content].

Definition accordion_listener : click_listener :=
  {| listener_target := [0; 0];
     listener_content := Some ([1], accordion_content) |}.

(** A block with a button and no content element. *)
Definition contentless_block : node :=
  Element "div" [("class", "accordion block")]
    [Element "button" [] [Text "More"]].

(** ** Vocabulary of further properties of the bootstrap *)

(** A body that throws, however far it gets. *)
Inductive fails {E} : proc E -> Prop :=
| fails_Fail : fails Fail
| fails_Act e k : fails k -> fails (Act e k)
| fails_Await k : fails k -> fails (Await k)
| fails_SetTimeout cb d k : fails k -> fails (SetTimeout cb d k).

(** The listener has ended: only quiet code is left, and [obs] has been
    shown. *)
Definition settled {E} (obs : list (event E)) (s : loop (event E)) : Prop :=
  Forall quiet (suspended s) /\ quiet_timers (timers s) /\
  observable (trace s) = obs.

Section BootstrapEarly.
Context {E : Type}.
Variable codeBasePath : string.
Variable loadLazy_body : proc E.

(** The stages of a page load up to the start of [loadLazy]. *)
Inductive early : loop (event E) -> Prop :=
| early_eager k others s :
    suspended s ≡ₚ seq (lift k) (rest_eager codeBasePath loadLazy_body) :: others ->
    Forall quiet others -> quiet_timers (timers s) ->
    observable (trace s) = [Start Eager] ->
    early s
| early_after_eager others s :
    suspended s ≡ₚ after_eager codeBasePath loadLazy_body :: others ->
    Forall quiet others -> quiet_timers (timers s) ->
    observable (trace s) = [Start Eager; Finish Eager] ->
    early s
| early_settled obs s :
    obs = [Start Eager] \/ obs = [Start Eager; Finish Eager; Start Lazy] ->
    settled obs s ->
    early s.
End BootstrapEarly.

(** Bodies that throw after a first step. *)
Definition failing_eager : proc sample_event := Await (Act FetchedSection Fail).
Definition failing_lazy : proc sample_event := Act LoadedFooter (Await Fail).

(** The end of a page load whose [loadEager] is [failing_eager]. *)
Definition failed_eager_end : loop (event sample_event) :=
  {| now := 5000; suspended := []; timers := [];
     trace := [(0, Start Eager); (0, Internal FetchedSection)] |}.

(** The end of a page load whose [loadLazy] is [failing_lazy]; the timer
    of the eager body fires after the failure. *)
Definition failed_lazy_end : loop (event sample_event) :=
  {| now := 5000; suspended := []; timers := [];
     trace := [(0, Start Eager); (0, Internal FetchedSection); (0, Finish Eager);
               (0, Start Lazy); (0, Internal LoadedFooter);
               (100, Internal FiredTimer)] |}.
(** * Properties *)

#[local] Arguments String.append : simpl nomatch.

(** ** Trees and paths *)

Lemma querySelector_Element sel t a kids :
  querySelector sel (Element t a kids) = first_in sel 0 kids.
Proof.
  simpl. generalize 0. induction kids as [|k rest IH]; intros i; simpl; [reflexivity|].
  rewrite IH. reflexivity.
Qed.

Lemma get_node_nil n : get_node [] n = Some n.
Proof. reflexivity. Qed.

Lemma get_node_cons i q n :
  get_node (i :: q) n =
  match childNodes n !! i with Some k => get_node q k | None => None end.
Proof. reflexivity. Qed.

Lemma get_node_app p q n :
  get_node (p ++ q)%list n =
  match get_node p n with Some m => get_node q m | None => None end.
Proof.
  revert n. induction p as [|i p IH]; intros n; simpl; [reflexivity|].
  destruct (childNodes n !! i); [apply IH | reflexivity].
Qed.

Lemma path_lt_irrefl p : path_lt p p = false.
Proof.
  induction p as [|i p IH]; simpl; [reflexivity|].
  rewrite Nat.ltb_irrefl, Nat.eqb_refl, IH. reflexivity.
Qed.

Lemma path_lt_total q p :
  path_lt q p = false -> path_lt p q = false -> q = p.
Proof.
  revert p. induction q as [|i q IH]; intros [|j p]; simpl; try congruence.
  intros H1 H2.
  apply orb_false_iff in H1 as [H1 H1'], H2 as [H2 H2'].
  apply Nat.ltb_ge in H1, H2.
  assert (i = j) by lia. subst j.
  rewrite Nat.eqb_refl in H1', H2'. simpl in *.
  f_equal. apply IH; assumption.
Qed.

Lemma path_lt_nil_r q : path_lt q [] = false.
Proof. destruct q; reflexivity. Qed.

Lemma first_in_correct sel l :
  Forall (query_correct sel) l ->
  forall i,
    match first_in sel i l with
    | Some (p, e) =>
        exists j rest k,
          p = (i + j) :: rest /\ l !! j = Some k /\ get_node rest k = Some e /\
          matches sel e = true /\
          (forall j' k', j' < j -> l !! j' = Some k' ->
                         matches sel k' = false /\ none_below sel k') /\
          (rest = [] \/ (matches sel k = false /\ first_match sel k rest e))
    | None =>
        forall j k, l !! j = Some k -> matches sel k = false /\ none_below sel k
    end.
Proof.
  induction 1 as [|k l Hk _ IH]; intros i; simpl.
  - intros j k Hj. destruct j; discriminate.
  - destruct (matches sel k) eqn:Hm.
    + exists 0, [], k. rewrite Nat.add_0_r.
      repeat split; auto; intros; lia.
    + unfold query_correct in Hk.
      destruct (querySelector sel k) as [[p e]|] eqn:Hq.
      * exists 0, p, k. rewrite Nat.add_0_r.
        destruct Hk as (Hne & Hget & Hme & Hmin).
        split; [reflexivity|]. split; [reflexivity|].
        split; [exact Hget|]. split; [exact Hme|].
        split; [intros; lia|].
        right. repeat split; auto.
      * specialize (IH (S i)).
        destruct (first_in sel (S i) l) as [[p e]|].
        -- destruct IH as (j & rest & k0 & -> & Hj & Hget & Hme & Hbefore & Hin).
           exists (S j), rest, k0.
           split; [f_equal; lia|].
           split; [exact Hj|].
           split; [exact Hget|].
           split; [exact Hme|].
           split; [|exact Hin].
           intros [|j'] k' Hlt Hl.
           ++ injection Hl as <-. split; assumption.
           ++ eapply Hbefore; [|exact Hl]. lia.
        -- intros [|j] k' Hl.
           ++ injection Hl as <-. split; assumption.
           ++ apply (IH j k' Hl).
Qed.

Lemma none_within sel k q e :
  matches sel k = false -> none_below sel k ->
  get_node q k = Some e -> matches sel e = false.
Proof.
  intros Hk Hbelow Hget. destruct q as [|i q].
  - injection Hget as <-. exact Hk.
  - eapply Hbelow; [|exact Hget]. discriminate.
Qed.

Lemma querySelector_correct sel n : query_correct sel n.
Proof.
  induction n as [d|d|t a kids IH] using node_ind;
    try (intros [|i q] e Hne Hget; [congruence | destruct i; discriminate]).
  unfold query_correct. rewrite querySelector_Element.
  pose proof (first_in_correct sel kids IH 0) as H.
  destruct (first_in sel 0 kids) as [[p e]|].
  - destruct H as (j & rest & k & -> & Hj & Hget & Hme & Hbefore & Hin).
    simpl. repeat split.
    + discriminate.
    + rewrite get_node_cons. simpl. rewrite Hj. exact Hget.
    + exact Hme.
    + intros [|j' q'] e' Hne Hq He'; [congruence|].
      rewrite get_node_cons in Hq. simpl in Hq.
      destruct (kids !! j') as [k'|] eqn:Hj'; [|discriminate].
      simpl. apply orb_false_iff. split.
      * apply Nat.ltb_ge. destruct (Nat.le_gt_cases j j') as [|Hlt]; [assumption|].
        destruct (Hbefore j' k' Hlt Hj') as [Hk' Hbelow].
        rewrite (none_within sel k' q' e' Hk' Hbelow Hq) in He'. discriminate.
      * destruct (Nat.eqb_spec j' j) as [->|]; [simpl|reflexivity].
        rewrite Hj' in Hj. injection Hj as ->.
        destruct Hin as [->|[Hk Hfirst]]; [apply path_lt_nil_r|].
        destruct q' as [|i q'].
        -- injection Hq as <-. congruence.
        -- destruct Hfirst as (_ & _ & _ & Hmin).
           apply (Hmin (i :: q') e'); [discriminate | assumption | assumption].
  - intros [|j q] e Hne Hget; [congruence|].
    rewrite get_node_cons in Hget. simpl in Hget.
    destruct (kids !! j) as [k|] eqn:Hj; [|discriminate].
    destruct (H j k Hj) as [Hk Hbelow].
    exact (none_within sel k q e Hk Hbelow Hget).
Qed.

Lemma querySelector_Some sel n p e :
  querySelector sel n = Some (p, e) <-> first_match sel n p e.
Proof.
  pose proof (querySelector_correct sel n) as H. unfold query_correct in H.
  split.
  - intros Hq. rewrite Hq in H. exact H.
  - intros (Hne & Hget & Hm & Hmin).
    destruct (querySelector sel n) as [[p' e']|].
    + destruct H as (Hne' & Hget' & Hm' & Hmin').
      assert (p' = p) as ->.
      { apply path_lt_total; [apply (Hmin p' e') | apply (Hmin' p e)]; assumption. }
      congruence.
    + rewrite (H p e Hne Hget) in Hm. discriminate.
Qed.

Lemma querySelector_None sel n :
  querySelector sel n = None <-> none_below sel n.
Proof.
  pose proof (querySelector_correct sel n) as H. unfold query_correct in H.
  split.
  - intros Hq. rewrite Hq in H. exact H.
  - intros Hnone. destruct (querySelector sel n) as [[p e]|]; [|reflexivity].
    destruct H as (Hne & Hget & Hm & _).
    rewrite (Hnone p e Hne Hget) in Hm. discriminate.
Qed.

(** ** Writes below a path *)

Lemma update_node_label_root f p d :
  (forall n, label_of (f n) = label_of n) ->
  label_of (update_node f p d) = label_of d.
Proof.
  intros Hf. destruct p as [|i p]; simpl; [apply Hf|].
  destruct d; reflexivity.
Qed.

Lemma update_node_label f :
  (forall n, label_of (f n) = label_of n) ->
  forall p q d, ~ strictly_below p q ->
    label_of <$> get_node q (update_node f p d) = label_of <$> get_node q d.
Proof.
  intros Hf p q. revert p.
  induction q as [|j q IH]; intros p d Hnot.
  - simpl. f_equal. apply update_node_label_root, Hf.
  - destruct p as [|i p].
    + exfalso. apply Hnot. split; [apply prefix_nil | discriminate].
    + destruct d as [s|s|t a kids]; try reflexivity.
      simpl. destruct (decide (i = j)) as [->|Hne].
      * rewrite list_lookup_alter_eq.
        destruct (kids !! j) as [k|]; simpl; [|reflexivity].
        apply IH. intros [Hpre Hneq]. apply Hnot. split.
        -- apply prefix_cons, Hpre.
        -- congruence.
      * rewrite list_lookup_alter_ne by assumption. reflexivity.
Qed.

Lemma update_node_unrelated f p q d :
  ~ p `prefix_of` q -> ~ q `prefix_of` p ->
  get_node q (update_node f p d) = get_node q d.
Proof.
  revert q d. induction p as [|i p IH]; intros q d Hpq Hqp.
  - exfalso. apply Hpq, prefix_nil.
  - destruct q as [|j q]; [exfalso; apply Hqp, prefix_nil|].
    destruct d as [s|s|t a kids]; try reflexivity.
    simpl. destruct (decide (i = j)) as [->|Hne].
    + rewrite list_lookup_alter_eq.
      destruct (kids !! j) as [k|]; simpl; [|reflexivity].
      apply IH; intros Hpre; [apply Hpq | apply Hqp]; apply prefix_cons, Hpre.
    + rewrite list_lookup_alter_ne by assumption. reflexivity.
Qed.

Lemma update_node_same_outside f p d :
  (forall n, label_of (f n) = label_of n) ->
  same_outside p d (update_node f p d).
Proof.
  intros Hf. split.
  - intros q Hq. apply update_node_label; assumption.
  - intros q Hpq Hqp. apply update_node_unrelated; assumption.
Qed.

Lemma same_outside_refl p d : same_outside p d d.
Proof. split; reflexivity. Qed.

Lemma replaceChildren_label n kids : label_of (replaceChildren n kids) = label_of n.
Proof. destruct n; reflexivity. Qed.

(** ** Strings *)

Lemma append_nil_r s : s +:+ EmptyString = s.
Proof. induction s as [|c s IH]; simpl; [reflexivity|]. f_equal. exact IH. Qed.

Lemma append_assoc s1 s2 s3 : (s1 +:+ s2) +:+ s3 = s1 +:+ (s2 +:+ s3).
Proof. induction s1 as [|c s1 IH]; simpl; [reflexivity|]. f_equal. exact IH. Qed.

Lemma concat_cons sep x y l :
  String.concat sep (x :: y :: l) = x +:+ sep +:+ String.concat sep (y :: l).
Proof. reflexivity. Qed.

Lemma concat_empty_cons x l :
  String.concat EmptyString (x :: l) = x +:+ String.concat EmptyString l.
Proof. destruct l; simpl; [symmetry; apply append_nil_r | reflexivity]. Qed.

(** [remove_nrt] keeps, in order, the characters that are no newline,
    carriage return or tab. *)
Lemma remove_nrt_filter s :
  list_ascii_of_string (remove_nrt s)
  = List.filter (fun c => negb (is_nrt c)) (list_ascii_of_string s).
Proof.
  induction s as [|c s IH]; [reflexivity|].
  simpl. unfold is_nrt at 1. destruct (_ || _)%bool; simpl; rewrite IH; reflexivity.
Qed.

Lemma trimStart_spec s :
  exists l, s = l +:+ trimStart s /\ all_whitespace l = true /\
            starts_with_whitespace (trimStart s) = false.
Proof.
  induction s as [|c s (l & Hs & Hl & Hstart)].
  - exists EmptyString. repeat split.
  - simpl. destruct (is_js_whitespace c) eqn:Hc.
    + exists (String c l). simpl. rewrite Hc, Hl, <- Hs. repeat split. exact Hstart.
    + exists EmptyString. simpl. rewrite Hc. repeat split.
Qed.

Lemma trimEnd_cons c s :
  trimEnd (String c s) =
  match trimEnd s with
  | EmptyString => if is_js_whitespace c then EmptyString else String c EmptyString
  | r => String c r
  end.
Proof. reflexivity. Qed.

Lemma trimEnd_spec s :
  exists r, s = trimEnd s +:+ r /\ all_whitespace r = true /\
            ends_with_whitespace (trimEnd s) = false.
Proof.
  induction s as [|c s (r & Hs & Hr & Hend)].
  - exists EmptyString. repeat split.
  - rewrite trimEnd_cons. destruct (trimEnd s) as [|c' t] eqn:Ht.
    + destruct (is_js_whitespace c) eqn:Hc.
      * exists (String c r). simpl in *. rewrite Hc, Hr, <- Hs. repeat split.
      * exists r. simpl in *. subst s. rewrite Hc. repeat split. exact Hr.
    + exists r. simpl in *. rewrite <- Hs. repeat split; assumption.
Qed.

Lemma trimEnd_head s :
  starts_with_whitespace s = false -> starts_with_whitespace (trimEnd s) = false.
Proof.
  destruct s as [|c s]; [reflexivity|]. simpl. intros Hc.
  destruct (trimEnd s); [rewrite Hc|]; simpl; exact Hc.
Qed.

(** [trim] cuts white space, and white space only, at both ends, and
    leaves none there. *)
Lemma trim_spec s :
  exists l r,
    s = l +:+ trim s +:+ r /\
    all_whitespace l = true /\ all_whitespace r = true /\
    starts_with_whitespace (trim s) = false /\
    ends_with_whitespace (trim s) = false.
Proof.
  destruct (trimStart_spec s) as (l & Hs & Hl & Hstart).
  destruct (trimEnd_spec (trimStart s)) as (r & Hs' & Hr & Hend).
  exists l, r. unfold trim. rewrite <- Hs'.
  repeat split; auto using trimEnd_head.
Qed.

Lemma replace_DX_match rest :
  replace_DX (String "D" (String "X" rest)) = dx_span +:+ replace_DX rest.
Proof. reflexivity. Qed.

Lemma replace_DX_skip c rest :
  (c <> "D"%char \/ forall rest', rest <> String "X" rest') ->
  replace_DX (String c rest) = String c (replace_DX rest).
Proof.
  intros H.
  destruct (Ascii.eqb_spec c "D") as [->|Hc].
  - destruct H as [H|H]; [congruence|].
    destruct rest as [|c' rest']; [reflexivity|].
    destruct (Ascii.eqb_spec c' "X") as [->|Hc']; [exfalso; apply (H rest'); reflexivity|].
    destruct c' as [[|] [|] [|] [|] [|] [|] [|] [|]]; try reflexivity.
    congruence.
  - destruct c as [[|] [|] [|] [|] [|] [|] [|] [|]]; try reflexivity.
    congruence.
Qed.



(** ** blocks/hero/hero.js *)

Section HeroFacts.
Context {engine : HtmlEngine}.

Lemma textOnly_from acc kids :
  fold_left (fun acc n => match n with
                          | Text d => acc +:+ d
                          | _ => acc
                          end) kids acc
  = acc +:+ String.concat EmptyString (direct_text kids).
Proof.
  revert acc. induction kids as [|k kids IH]; intros acc.
  - simpl. symmetry. apply append_nil_r.
  - destruct k as [d|d|t a sub]; cbn [fold_left]; rewrite IH; try reflexivity.
    change (direct_text (Text d :: kids)) with (d :: direct_text kids).
    rewrite concat_empty_cons, append_assoc. reflexivity.
Qed.

(** [textOnly] is the concatenation of the direct text nodes. *)
Lemma textOnly_direct_text kids :
  textOnly kids = String.concat EmptyString (direct_text kids).
Proof. unfold textOnly. rewrite textOnly_from. reflexivity. Qed.


Lemma heroBlock_None doc :
  none_below (ClassSel "hero") doc -> h1Element doc = None.
Proof.
  intros H. unfold h1Element, heroBlock.
  rewrite (proj2 (querySelector_None _ _) H). reflexivity.
Qed.

Lemma h1Element_None doc hp hb :
  first_match (ClassSel "hero") doc hp hb ->
  none_below (TypeSel "h1") hb -> h1Element doc = None.
Proof.
  intros Hhero Hnone. unfold h1Element, heroBlock.
  rewrite (proj2 (querySelector_Some _ _ _ _) Hhero). simpl.
  rewrite (proj2 (querySelector_None _ _) Hnone). reflexivity.
Qed.

Lemma h1Element_Some doc hp hb rp h1 :
  first_match (ClassSel "hero") doc hp hb ->
  first_match (TypeSel "h1") hb rp h1 ->
  h1Element doc = Some ((hp ++ rp)%list, h1).
Proof.
  intros Hhero Hh1. unfold h1Element, heroBlock.
  rewrite (proj2 (querySelector_Some _ _ _ _) Hhero). simpl.
  rewrite (proj2 (querySelector_Some _ _ _ _) Hh1). reflexivity.
Qed.

(** Every document has no hero, a hero without heading, or a first
    heading in its first hero. *)
Lemma h1Element_cases doc :
  (h1Element doc = None /\
   (none_below (ClassSel "hero") doc \/
    exists hp hb, first_match (ClassSel "hero") doc hp hb /\
                  none_below (TypeSel "h1") hb)) \/
  (exists hp hb rp h1,
      first_match (ClassSel "hero") doc hp hb /\
      first_match (TypeSel "h1") hb rp h1 /\
      h1Element doc = Some ((hp ++ rp)%list, h1)).
Proof.
  destruct (querySelector (ClassSel "hero") doc) as [[hp hb]|] eqn:Hhero.
  - apply querySelector_Some in Hhero.
    destruct (querySelector (TypeSel "h1") hb) as [[rp h1]|] eqn:Hh1.
    + apply querySelector_Some in Hh1. right. exists hp, hb, rp, h1.
      split; [exact Hhero|]. split; [exact Hh1|].
      apply (h1Element_Some doc hp hb rp h1); assumption.
    + apply querySelector_None in Hh1. left. split.
      * eapply h1Element_None; eassumption.
      * right. exists hp, hb. split; assumption.
  - apply querySelector_None in Hhero. left. split.
    + apply heroBlock_None, Hhero.
    + left. exact Hhero.
Qed.

Lemma set_innerHTML_label markup n : label_of (set_innerHTML markup n) = label_of n.
Proof. apply replaceChildren_label. Qed.

Lemma startsWith_empty p : p <> EmptyString -> startsWith EmptyString p = false.
Proof. destruct p; [congruence | reflexivity]. Qed.

(** C9: without an element of class [hero] in the document, or without
    an [h1] below the first such element, the hero script ends normally
    and the document it leaves is the document it found. *)
Theorem hero_js_absent_unchanged doc :
  (none_below (ClassSel "hero") doc \/
   exists hp hb, first_match (ClassSel "hero") doc hp hb /\
                 none_below (TypeSel "h1") hb) ->
  hero_js doc = Normal doc.
Proof.
  intros H. unfold hero_js, hero_writes.
  assert (h1Element doc = None) as ->; [|reflexivity].
  destruct H as [H|(hp & hb & Hhero & Hnone)].
  - apply heroBlock_None, H.
  - eapply h1Element_None; eassumption.
Qed.


(** C10: whatever the document, the script ends normally, and either
    the document is as before, or it differs from before only below
    the first [h1] of the first element of class [hero]: every node
    that is not strictly below that heading keeps its name, attributes
    or data, and every subtree beside the heading's branch is the
    same. *)
Theorem hero_js_frame doc :
  exists doc',
    hero_js doc = Normal doc' /\
    (doc' = doc \/
     exists hp hb rp h1,
       first_match (ClassSel "hero") doc hp hb /\
       first_match (TypeSel "h1") hb rp h1 /\
       same_outside (hp ++ rp)%list doc doc').
Proof.
  unfold hero_js, hero_writes.
  destruct (h1Element_cases doc) as [[-> _]|(hp & hb & rp & h1 & Hhero & Hh1 & ->)].
  - exists doc. split; [reflexivity | left; reflexivity].
  - cbn [truthy member fst snd]. destruct (startsWith (cleanText h1) "FeDX").
    + eexists. split; [reflexivity|]. right. exists hp, hb, rp, h1.
      split; [exact Hhero|]. split; [exact Hh1|].
      simpl. apply update_node_same_outside. intros n. apply set_innerHTML_label.
    + exists doc. split; [reflexivity | left; reflexivity].
Qed.
End HeroFacts.

(** *** The script on concrete pages, with the reference engine *)

(** A page with a heading [FeDX] but no hero block stays as it is. *)
Lemma hero_js_absent_unchanged_witness :
  none_below (ClassSel "hero") page_without_hero /\
  @hero_js reference_engine page_without_hero = Normal page_without_hero.
Proof.
  assert (H : none_below (ClassSel "hero") page_without_hero).
  { apply querySelector_None. reflexivity. }
  split; [exact H|].
  apply (@hero_js_absent_unchanged reference_engine page_without_hero).
  left. exact H.
Defined.


(** The picture of a heading may say [FeDX]: the heading's own text
    decides. *)
Example hero_js_picture_ignored :
  @hero_js reference_engine page_picture = Normal page_picture.
Proof. reflexivity. Qed.

(** A page whose heading reads [FeDDXX] is left as it is, by the first
    run and so by the second. *)
Lemma hero_js_FeDDXX_unchanged :
  @hero_js reference_engine page_FeDDXX = Normal page_FeDDXX /\
  @hero_js_twice reference_engine page_FeDDXX = @hero_js reference_engine page_FeDDXX.
Proof. split; reflexivity. Qed.

(** C2: the hero script is not idempotent.  On the page whose heading
    reads [FeDXDDXX] the first run leaves the text nodes [Fe], [D] and
    [X] around two spans, so the guard holds again, and the second run
    wraps the [DX] of each span of the first run in a further span. *)
Theorem hero_js_not_idempotent :
  @hero_js reference_engine page_FeDXDDXX =
    Normal (page_of [hero_block [Text "Fe"; dx [Text "DX"]; Text "D";
                                 dx [Text "DX"]; Text "X"]]) /\
  @hero_js_twice reference_engine page_FeDXDDXX =
    Normal (page_of [hero_block [Text "Fe"; dx [dx [Text "DX"]]; Text "D";
                                 dx [dx [Text "DX"]]; Text "X"]]) /\
  @hero_js_twice reference_engine page_FeDXDDXX <> @hero_js reference_engine page_FeDXDDXX.
Proof.
  split; [reflexivity|]. split; [reflexivity|].
  intros H. vm_compute in H. discriminate H.
Qed.

(** C1: the hero script is no function of a block it is given.  On the
    page with two hero blocks it rewrites the heading of the first and
    leaves the second as it was, so no [decorate] applied to the second
    block gives what the script gives. *)
Theorem hero_js_ignores_its_block :
  @hero_js reference_engine page_two_heroes =
    Normal (page_of [hero_block [Text "Fe"; dx [Text "DX"]; Text " one"];
                     hero_block [Text "FeDX two"]]) /\
  get_node [0; 1; 0; 0; 1] page_two_heroes = Some (hero_block [Text "FeDX two"]) /\
  forall decorate : node -> node,
    @hero_js reference_engine page_two_heroes <>
    Normal (update_node decorate [0; 1; 0; 0; 1] page_two_heroes).
Proof.
  split; [reflexivity|]. split; [reflexivity|].
  intros decorate H. vm_compute in H. discriminate H.
Qed.

(** ** The list-based block pattern *)

Section ListBlockFacts.
Context {engine : HtmlEngine}.

Lemma add_row_items items row :
  add_row (Element "ul" [] items) row = Element "ul" [] (items ++ [li_of_row row])%list.
Proof. reflexivity. Qed.

Lemma fold_add_row rows items :
  fold_left add_row rows (Element "ul" [] items)
  = Element "ul" [] (items ++ map li_of_row rows)%list.
Proof.
  revert items. induction rows as [|row rows IH]; intros items; cbn [fold_left map].
  - rewrite app_nil_r. reflexivity.
  - rewrite add_row_items, IH, <- app_assoc. reflexivity.
Qed.

End ListBlockFacts.

(** The pattern on a block of two rows between a text and a comment. *)
Example decorate_list_two_rows :
  @decorate_list reference_engine two_row_block =
  Normal (Element "div" [("class", "cards block")]
            [Element "ul" []
               [Element "li" [] [Element "div" [] [Text "Content for card 1"]];
                Element "li" [] [Element "div" [] [Element "b" [] [Text "Content"];
                                                   Text " for card 2"]]]]).
Proof. reflexivity. Qed.

(** ** The asynchronous data loading pattern *)

Section AsyncBlockFacts.
Context {response data : Type}.
Variable network : option string -> completion response.
Variable json : response -> completion data.
Variable renderData : node -> data -> node * option exn.

(** C5: when the request fails, or the body of the answer is no JSON,
    the decorator ends normally (its promise is fulfilled, the error
    stays inside), the block holds the one text [Failed to load content]
    and one request has been sent, no second one. *)
Theorem decorate_async_failure_caught t a kids sent e :
  let block := Element t a kids in
  (network (dataset_source block) = Throw e \/
   exists r, network (dataset_source block) = Normal r /\ json r = Throw e) ->
  decorate_async network json renderData {| block_of := block; requests := sent |}
  = (Normal tt,
     {| block_of := Element t a [Text "Failed to load content"];
        requests := (sent ++ [dataset_source block])%list |}).
Proof.
  intros block. subst block.
  unfold decorate_async, try_catch, bind, fetch, response_json.
  cbn [block_of requests].
  generalize (dataset_source (Element t a kids)). intros url.
  intros [Hnet|(r & Hnet & Hjson)]; rewrite Hnet; [reflexivity|].
  rewrite Hjson. reflexivity.
Qed.
End AsyncBlockFacts.

(** The pattern on a block with a data source while the network is
    down. *)
Lemma decorate_async_failure_caught_witness :
  network_down (dataset_source data_block) = Throw (NetworkError "Failed to fetch") /\
  decorate_async network_down (fun r : nat => Normal r) (fun b _ => (b, None))
                 {| block_of := data_block; requests := [] |}
  = (Normal tt,
     {| block_of := Element "div" [("class", "feed block"); ("data-source", "/feed.json")]
                            [Text "Failed to load content"];
        requests := [Some "/feed.json"] |}).
Proof.
  split; [reflexivity|].
  apply (decorate_async_failure_caught network_down (fun r : nat => Normal r)
           (fun b _ => (b, None)) "div"
           [("class", "feed block"); ("data-source", "/feed.json")]
           [Element "div" [] [Text "loading"]] [] (NetworkError "Failed to fetch")).
  left. reflexivity.
Defined.

(** ** Helpers of scripts/aem.js *)

Lemma is_name_char_hyphen : is_name_char hyphen = false.
Proof. reflexivity. Qed.

Lemma is_name_char_to_lower c : is_name_char (to_lower c) = is_alnum c.
Proof. destruct c as [[|] [|] [|] [|] [|] [|] [|] [|]]; reflexivity. Qed.

Lemma hyphen_not_name c : is_name_char c = true -> Ascii.eqb c hyphen = false.
Proof.
  intros H. destruct (Ascii.eqb_spec c hyphen) as [->|]; [|reflexivity].
  rewrite is_name_char_hyphen in H. discriminate.
Qed.

Lemma hyphenate_clean s : name_chars_or_hyphens (hyphenate s) = true.
Proof.
  induction s as [|c s IH]; simpl; [reflexivity|].
  rewrite IH, andb_true_r.
  destruct (is_name_char c) eqn:Hc; [rewrite Hc; reflexivity|].
  rewrite is_name_char_hyphen. reflexivity.
Qed.

Lemma hyphenate_has_name s : has_name_char (hyphenate (lowercase s)) = has_alnum s.
Proof.
  induction s as [|c s IH]; simpl; [reflexivity|].
  rewrite IH. f_equal.
  destruct (is_name_char (to_lower c)) eqn:Hc.
  - rewrite Hc. rewrite <- is_name_char_to_lower. symmetry. exact Hc.
  - rewrite is_name_char_hyphen, <- is_name_char_to_lower. symmetry. exact Hc.
Qed.

Lemma squeeze_cons c s :
  squeeze (String c s) =
  match s with
  | String c' _ =>
      if (Ascii.eqb c hyphen && Ascii.eqb c' hyphen)%bool then squeeze s
      else String c (squeeze s)
  | EmptyString => String c EmptyString
  end.
Proof. reflexivity. Qed.

(** [squeeze] keeps the first character of a non-empty string. *)
Lemma squeeze_head c s : exists r, squeeze (String c s) = String c r.
Proof.
  revert c. induction s as [|c' s IH]; intros c.
  - exists EmptyString. reflexivity.
  - rewrite squeeze_cons.
    destruct (Ascii.eqb_spec c hyphen) as [->|]; simpl.
    + destruct (Ascii.eqb_spec c' hyphen) as [->|]; [apply IH | eauto].
    + eauto.
Qed.

Lemma squeeze_clean s :
  name_chars_or_hyphens s = true -> name_chars_or_hyphens (squeeze s) = true.
Proof.
  induction s as [|c s IH]; [reflexivity|].
  intros H. simpl in H. apply andb_true_iff in H as [Hc Hs].
  rewrite squeeze_cons. destruct s as [|c' s]; [simpl; rewrite Hc; reflexivity|].
  destruct (Ascii.eqb c hyphen && Ascii.eqb c' hyphen)%bool; [apply IH, Hs|].
  cbn [name_chars_or_hyphens]. rewrite Hc. apply IH, Hs.
Qed.

Lemma no_double_hyphen_cons c c' r :
  no_double_hyphen (String c (String c' r)) =
  (negb (Ascii.eqb c hyphen && Ascii.eqb c' hyphen) && no_double_hyphen (String c' r))%bool.
Proof. reflexivity. Qed.

Lemma squeeze_no_double s : no_double_hyphen (squeeze s) = true.
Proof.
  induction s as [|c s IH]; [reflexivity|].
  rewrite squeeze_cons. destruct s as [|c' s]; [reflexivity|].
  destruct (Ascii.eqb c hyphen && Ascii.eqb c' hyphen)%bool eqn:Hcc; [exact IH|].
  destruct (squeeze_head c' s) as [r Hr]. rewrite Hr in *.
  rewrite no_double_hyphen_cons, Hcc, IH. reflexivity.
Qed.

Lemma squeeze_has_name s : has_name_char (squeeze s) = has_name_char s.
Proof.
  induction s as [|c s IH]; [reflexivity|].
  rewrite squeeze_cons. destruct s as [|c' s]; [reflexivity|].
  destruct (Ascii.eqb c hyphen && Ascii.eqb c' hyphen)%bool eqn:Hcc.
  - rewrite IH. apply andb_true_iff in Hcc as [Hc _].
    apply Ascii.eqb_eq in Hc. subst c.
    cbn [has_name_char]. rewrite is_name_char_hyphen. reflexivity.
  - cbn [has_name_char] in *. rewrite IH. reflexivity.
Qed.

Lemma strip_trailing_cons c c' r :
  strip_trailing_hyphen (String c (String c' r)) =
  String c (strip_trailing_hyphen (String c' r)).
Proof. reflexivity. Qed.

Lemma strip_trailing_head v :
  starts_with_name_char (strip_trailing_hyphen v) = starts_with_name_char v.
Proof.
  destruct v as [|c [|c' r]]; try reflexivity.
  simpl. destruct (Ascii.eqb c hyphen) eqn:Hc; simpl; rewrite ?Hc; reflexivity.
Qed.

Lemma kebab_words_true w :
  kebab_words true w = (kebab_words false w && starts_with_name_char w)%bool.
Proof.
  destruct w as [|c r]; [reflexivity|]. simpl.
  destruct (Ascii.eqb c hyphen); simpl; [rewrite andb_false_r | rewrite andb_true_r];
    reflexivity.
Qed.

Lemma kebab_words_false_cons c w :
  kebab_words false (String c w) =
  if Ascii.eqb c hyphen then kebab_words true w
  else (is_name_char c && kebab_words false w)%bool.
Proof. reflexivity. Qed.

Lemma strip_trailing_kebab v :
  name_chars_or_hyphens v = true -> no_double_hyphen v = true ->
  kebab_words false (strip_trailing_hyphen v) = true.
Proof.
  induction v as [|c v IH]; [reflexivity|].
  intros Hclean Hnd. simpl in Hclean. apply andb_true_iff in Hclean as [Hc Hv].
  destruct v as [|c' r].
  - simpl. destruct (Ascii.eqb c hyphen) eqn:Hh; [reflexivity|].
    simpl. rewrite Hh. rewrite orb_false_r in Hc. rewrite Hc. reflexivity.
  - rewrite no_double_hyphen_cons in Hnd. apply andb_true_iff in Hnd as [Hcc Hnd].
    rewrite strip_trailing_cons. specialize (IH Hv Hnd).
    rewrite kebab_words_false_cons. destruct (Ascii.eqb c hyphen) eqn:Hh.
    + rewrite kebab_words_true, IH, strip_trailing_head.
      simpl in Hcc. exact Hcc.
    + rewrite orb_false_r in Hc. rewrite Hc. exact IH.
Qed.

Lemma strip_leading_clean u :
  name_chars_or_hyphens u = true ->
  name_chars_or_hyphens (strip_leading_hyphen u) = true.
Proof.
  destruct u as [|c r]; [reflexivity|]. intros H.
  cbn [strip_leading_hyphen]. destruct (Ascii.eqb c hyphen) eqn:E; [|exact H].
  simpl in H. apply andb_true_iff in H as [_ H]. exact H.
Qed.

Lemma no_double_hyphen_tail c r :
  no_double_hyphen (String c r) = true -> no_double_hyphen r = true.
Proof.
  destruct r as [|c' r]; [reflexivity|].
  rewrite no_double_hyphen_cons. intros H. apply andb_true_iff in H as [_ H]. exact H.
Qed.

Lemma strip_leading_no_double u :
  no_double_hyphen u = true -> no_double_hyphen (strip_leading_hyphen u) = true.
Proof.
  destruct u as [|c r]; [reflexivity|]. intros H.
  cbn [strip_leading_hyphen]. destruct (Ascii.eqb c hyphen) eqn:E; [|exact H].
  exact (no_double_hyphen_tail c r H).
Qed.

Lemma strip_leading_has_name u :
  has_name_char (strip_leading_hyphen u) = has_name_char u.
Proof.
  destruct u as [|c r]; [reflexivity|]. simpl.
  destruct (Ascii.eqb_spec c hyphen) as [->|]; [|reflexivity].
  rewrite is_name_char_hyphen. reflexivity.
Qed.

Lemma strip_leading_head u :
  name_chars_or_hyphens u = true -> no_double_hyphen u = true ->
  starts_with_name_char (strip_leading_hyphen u) = has_name_char u.
Proof.
  destruct u as [|c r]; [reflexivity|]. intros Hclean Hnd.
  simpl in Hclean. apply andb_true_iff in Hclean as [Hc Hr].
  cbn [strip_leading_hyphen has_name_char].
  destruct (Ascii.eqb_spec c hyphen) as [->|Hne].
  - rewrite is_name_char_hyphen. simpl.
    destruct r as [|c' r]; [reflexivity|].
    rewrite no_double_hyphen_cons in Hnd. apply andb_true_iff in Hnd as [Hcc _].
    simpl in Hcc. simpl in Hr. apply andb_true_iff in Hr as [Hc' _].
    cbn [starts_with_name_char has_name_char]. rewrite Hcc.
    destruct (Ascii.eqb c' hyphen); [discriminate|].
    rewrite orb_false_r in Hc'. rewrite Hc'. reflexivity.
  - apply Ascii.eqb_neq in Hne. simpl. rewrite Hne in *. simpl.
    rewrite orb_false_r in Hc. rewrite Hc. reflexivity.
Qed.

(** On an input that holds a letter or a digit the result is a class
    name in kebab-case. *)
Lemma toClassName_is_kebab s :
  has_alnum s = true -> is_kebab_case (toClassName s) = true.
Proof.
  intros Ha. unfold is_kebab_case, toClassName.
  set (u := squeeze (hyphenate (lowercase s))).
  assert (Hclean : name_chars_or_hyphens u = true)
    by apply squeeze_clean, hyphenate_clean.
  assert (Hnd : no_double_hyphen u = true) by apply squeeze_no_double.
  rewrite kebab_words_true, strip_trailing_head.
  rewrite strip_trailing_kebab
    by (apply strip_leading_clean || apply strip_leading_no_double; assumption).
  rewrite strip_leading_head by assumption.
  unfold u. rewrite squeeze_has_name, hyphenate_has_name. exact Ha.
Qed.

(** The three values the reference gives. *)
Lemma toClassName_reference_examples :
  toClassName "My Block Name" = "my-block-name" /\
  toClassName "Hello  World!!!" = "hello-world" /\
  toClassName "100% Awesome" = "100-awesome".
Proof. repeat split. Qed.

Lemma read_row_entry config row :
  read_row config row =
  match row_entry row with
  | Some (k, v) => <[k := v]> config
  | None => config
  end.
Proof.
  unfold read_row, row_entry.
  destruct (element_children row) as [|key [|value rest]]; reflexivity.
Qed.

Lemma fold_read_row rows (config : gmap string config_value) :
  fold_left read_row rows config
  = foldr (fun e acc => <[e.1 := e.2]> acc) config (rev (omap row_entry rows)).
Proof.
  revert config. induction rows as [|row rows IH]; intros config; [reflexivity|].
  cbn [fold_left]. rewrite IH, read_row_entry.
  change (omap row_entry (row :: rows))
    with (match row_entry row with
          | Some e => e :: omap row_entry rows
          | None => omap row_entry rows
          end).
  destruct (row_entry row) as [[k v]|]; [|reflexivity].
  cbn [rev]. rewrite foldr_app. reflexivity.
Qed.

(** The object holds, for each key, the value of the last row that sets
    the key. *)
Lemma readBlockConfig_entries block :
  readBlockConfig block = list_to_map (rev (omap row_entry (element_children block))).
Proof. unfold readBlockConfig. rewrite fold_read_row. reflexivity. Qed.


(** The block of the API reference and its object. *)
Example readBlockConfig_my_block :
  readBlockConfig my_block =
  {[ "title" := VString "My Page Title";
     "columns" := VString "3";
     "url" := VString "https://example.com" ]}.
Proof.
  apply map_eq. intros k. rewrite readBlockConfig_entries.
  vm_compute (rev _).
  repeat (rewrite ?list_to_map_cons, ?lookup_insert; case_decide; [reflexivity|]).
  reflexivity.
Qed.


(** Links, images, several links, and a key set twice. *)
Example readBlockConfig_rich_block :
  readBlockConfig rich_block !! "home-page" = Some (VString "/home") /\
  readBlockConfig rich_block !! "poster" = Some (VString "/poster.png") /\
  readBlockConfig rich_block !! "see-also" = Some (VArray ["/a"; "/b"]) /\
  readBlockConfig rich_block !! "columns" = Some (VString "3") /\
  readBlockConfig rich_block !! "Columns" = None.
Proof. repeat split; vm_compute; reflexivity. Qed.

(** ** The page bootstrap *)

Lemma seq_assoc {E} (p q r : proc E) : seq (seq p q) r = seq p (seq q r).
Proof. induction p; simpl; congruence. Qed.

Lemma observable_app {E} (tr tr' : list (nat * event E)) :
  observable (tr ++ tr')%list = (observable tr ++ observable tr')%list.
Proof. unfold observable. rewrite map_app, List.filter_app. reflexivity. Qed.

Lemma observable_internal {E} (tr : list (nat * event E)) :
  internal_only tr -> observable tr = [].
Proof.
  induction 1 as [|[t e] tr He _ IH]; [reflexivity|].
  unfold observable in *. simpl in *. rewrite He. simpl. exact IH.
Qed.

Lemma observable_elem {E} (tr : list (nat * event E)) t e :
  (t, e) ∈ tr -> is_internal e = false -> e ∈ observable tr.
Proof.
  intros Hin He. unfold observable.
  apply list_elem_of_In, List.filter_In. split.
  - apply list_elem_of_In, list_elem_of_fmap. exists (t, e). split; [reflexivity | exact Hin].
  - rewrite He. reflexivity.
Qed.

Lemma internal_only_elem {E} (tr : list (nat * event E)) t e :
  internal_only tr -> (t, e) ∈ tr -> is_internal e = true.
Proof.
  intros Hall Hin. unfold internal_only in Hall. rewrite Forall_forall in Hall.
  exact (Hall (t, e) Hin).
Qed.

(** Of two lists with the same elements, one with [x] in front and one
    with [y], either [x] is [y] or [x] is further in the second. *)
Lemma Permutation_pick {A} (x y : A) (l k : list A) :
  x :: l ≡ₚ y :: k ->
  (x = y /\ l ≡ₚ k) \/ (exists k', k ≡ₚ x :: k' /\ l ≡ₚ y :: k').
Proof.
  intros H.
  assert (Hin : x ∈ y :: k) by (rewrite <- H; left).
  apply elem_of_cons in Hin as [->|Hin].
  - left. split; [reflexivity|]. exact (Permutation_cons_inv H).
  - right. apply elem_of_Permutation in Hin as [k' Hk']. exists k'.
    split; [exact Hk'|].
    rewrite Hk' in H. rewrite (Permutation_swap x y k') in H.
    exact (Permutation_cons_inv H).
Qed.

(** Running quiet code adds quiet continuations, quiet timers and
    internal events, and nothing else. *)
Lemma run_lift {E} (q : proc E) (s : loop (event E)) :
  exists ks ts tr,
    Forall quiet ks /\ quiet_timers ts /\ internal_only tr /\
    run (lift q) s =
    {| now := now s; suspended := (ks ++ suspended s)%list;
       timers := (ts ++ timers s)%list; trace := (trace s ++ tr)%list |}.
Proof.
  revert s. induction q as [| |e k IH|k _|cb _ d k IH]; intros s; simpl.
  - exists [], [], []. rewrite app_nil_r. destruct s. repeat split; constructor.
  - exists [], [], []. rewrite app_nil_r. destruct s. repeat split; constructor.
  - destruct (IH {| now := now s; suspended := suspended s; timers := timers s;
                   trace := (trace s ++ [(now s, Internal e)])%list |})
      as (ks & ts & tr & Hks & Hts & Htr & ->).
    exists ks, ts, ((now s, Internal e) :: tr). simpl.
    rewrite <- app_assoc. repeat split; auto. constructor; auto.
  - exists [lift k], [], []. rewrite app_nil_r. repeat split; try constructor.
    + exists k. reflexivity.
    + constructor.
  - destruct (IH {| now := now s; suspended := suspended s;
                   timers := (now s + d, lift cb) :: timers s; trace := trace s |})
      as (ks & ts & tr & Hks & Hts & Htr & ->).
    exists ks, (ts ++ [(now s + d, lift cb)])%list, tr. simpl.
    rewrite <- app_assoc. repeat split; auto.
    apply Forall_app. split; [exact Hts|]. constructor; [|constructor].
    exists cb. reflexivity.
Qed.

(** Running a body followed by [rest]: the body suspends, or fails, or
    ends and [rest] runs; until then only quiet timers and internal
    events have been added. *)
Lemma run_body {E} (k : proc E) (rest : proc (event E)) (s : loop (event E)) :
  exists ts tr,
    quiet_timers ts /\ internal_only tr /\
    let s' := {| now := now s; suspended := suspended s;
                 timers := (ts ++ timers s)%list; trace := (trace s ++ tr)%list |} in
    (exists k', run (seq (lift k) rest) s =
                {| now := now s; suspended := seq (lift k') rest :: suspended s;
                   timers := (ts ++ timers s)%list; trace := (trace s ++ tr)%list |}) \/
    run (seq (lift k) rest) s = s' \/
    run (seq (lift k) rest) s = run rest s'.
Proof.
  revert s. induction k as [| |e k IH|k _|cb _ d k IH]; intros s; simpl.
  - exists [], []. rewrite app_nil_r. destruct s; simpl.
    split; [constructor|]. split; [constructor|]. right. right. reflexivity.
  - exists [], []. rewrite app_nil_r. destruct s; simpl.
    split; [constructor|]. split; [constructor|]. right. left. reflexivity.
  - destruct (IH {| now := now s; suspended := suspended s; timers := timers s;
                   trace := (trace s ++ [(now s, Internal e)])%list |})
      as (ts & tr & Hts & Htr & H).
    exists ts, ((now s, Internal e) :: tr). simpl in *.
    rewrite <- app_assoc in H. simpl in H.
    split; [exact Hts|]. split; [constructor; auto|]. exact H.
  - exists [], []. rewrite app_nil_r.
    split; [constructor|]. split; [constructor|]. left. exists k. reflexivity.
  - destruct (IH {| now := now s; suspended := suspended s;
                   timers := (now s + d, lift cb) :: timers s; trace := trace s |})
      as (ts & tr & Hts & Htr & H).
    exists (ts ++ [(now s + d, lift cb)])%list, tr. simpl in *.
    rewrite <- app_assoc. simpl.
    split; [|split; [exact Htr | exact H]].
    apply Forall_app. split; [exact Hts|]. constructor; [|constructor].
    exists cb. reflexivity.
Qed.

Section BootstrapFacts.
Context {E : Type}.
Variable codeBasePath : string.
Variables loadEager_body loadLazy_body : proc E.

#[local] Abbreviation Stage := (stage codeBasePath loadLazy_body).
#[local] Abbreviation Position := (position codeBasePath loadLazy_body).
#[local] Abbreviation RestEager := (rest_eager codeBasePath loadLazy_body).
#[local] Abbreviation AfterEager := (after_eager codeBasePath loadLazy_body).
#[local] Abbreviation RestLazy := (@rest_lazy E codeBasePath).
#[local] Abbreviation AfterLazy := (@after_lazy E codeBasePath).

Lemma on_DOMContentLoaded_unfold :
  on_DOMContentLoaded codeBasePath loadEager_body loadLazy_body
  = Act (Start Eager) (seq (lift loadEager_body) RestEager).
Proof.
  unfold on_DOMContentLoaded, await, loadEager, loadLazy, call.
  simpl. rewrite ?seq_assoc. simpl. rewrite ?seq_assoc. reflexivity.
Qed.

(** A Stage stays when quiet code has run. *)
Lemma stage_quiet_run susp tm tr ks ts tr' :
  Stage susp tm tr ->
  Forall quiet ks -> quiet_timers ts -> internal_only tr' ->
  Stage (ks ++ susp)%list (ts ++ tm)%list (tr ++ tr')%list.
Proof.
  intros Hst Hks Hts Htr'.
  assert (Hobs : observable (tr ++ tr')%list = observable tr).
  { rewrite observable_app, (observable_internal tr' Htr'), app_nil_r. reflexivity. }
  destruct Hst as [p obs others susp tm tr Hpos Hperm Hothers Htm Hobs'
                  |obs susp tm tr Hfail Hsusp Htm Hobs'
                  |t td others susp tm tr Hsusp Hperm Hothers Hobs' Hstart Hlate
                  |susp tm tr Hsusp Htm Hobs' Himp].
  - eapply stage_listener with (others := (ks ++ others)%list); eauto.
    + rewrite Hperm. symmetry. apply Permutation_middle.
    + apply Forall_app; auto.
    + apply Forall_app; auto.
    + congruence.
  - eapply stage_failed; eauto.
    + apply Forall_app; auto.
    + apply Forall_app; auto.
    + congruence.
  - eapply stage_timer with (others := (ts ++ others)%list); eauto.
    + apply Forall_app; auto.
    + rewrite Hperm. symmetry. apply Permutation_middle.
    + apply Forall_app; auto.
    + congruence.
    + apply elem_of_app. left. exact Hstart.
  - eapply stage_imported; eauto.
    + apply Forall_app; auto.
    + apply Forall_app; auto.
    + congruence.
    + intros t Hin. apply elem_of_app in Hin as [Hin|Hin].
      * destruct (Himp t Hin) as (td & Htd & Hle). exists td.
        split; [apply elem_of_app; left; exact Htd | exact Hle].
      * apply (internal_only_elem tr' t _ Htr') in Hin. discriminate.
Qed.
#[local] Abbreviation LoopStage := (loop_stage codeBasePath loadLazy_body).

Lemma observable_snoc (tr : list (nat * event E)) t e :
  is_internal e = false ->
  observable (tr ++ [(t, e)])%list = (observable tr ++ [e])%list.
Proof.
  intros He. rewrite observable_app. f_equal.
  unfold observable. simpl. rewrite He. reflexivity.
Qed.

(** The listener inside a body: it suspends in the body, or the body
    fails, or the body ends and [rest] runs. *)
Lemma run_phase k rest obs susp tm tr t :
  Forall quiet susp -> quiet_timers tm -> observable tr = obs ->
  (forall k', Position (seq (lift k') rest) obs) ->
  (obs = [Start Eager] \/ obs = [Start Eager; Finish Eager; Start Lazy]) ->
  (forall tm' tr', quiet_timers tm' -> observable tr' = obs ->
     LoopStage (run rest {| now := t; suspended := susp; timers := tm';
                             trace := tr' |})) ->
  LoopStage (run (seq (lift k) rest)
                  {| now := t; suspended := susp; timers := tm; trace := tr |}).
Proof.
  intros Hsusp Htm Hobs Hpos Hfail Hrest.
  destruct (run_body k rest {| now := t; suspended := susp; timers := tm; trace := tr |})
    as (ts & tr' & Hts & Htr' & H). simpl in H.
  assert (Hobs' : observable (tr ++ tr')%list = obs).
  { rewrite observable_app, (observable_internal tr' Htr'), app_nil_r. exact Hobs. }
  assert (Htm' : quiet_timers (ts ++ tm)%list) by (apply Forall_app; auto).
  destruct H as [[k' ->]| [-> | ->]].
  - eapply stage_listener; simpl; eauto.
  - eapply stage_failed; simpl; eauto.
  - apply Hrest; assumption.
Qed.

(** Resuming the listener where it stands leads to a Stage again. *)
Lemma run_listener p obs susp tm tr t :
  Position p obs -> Forall quiet susp -> quiet_timers tm -> observable tr = obs ->
  LoopStage (run p {| now := t; suspended := susp; timers := tm; trace := tr |}).
Proof.
  intros Hpos Hsusp Htm Hobs.
  assert (Hafter_eager :
            forall tm' tr', quiet_timers tm' -> observable tr' = [Start Eager] ->
              LoopStage (run RestEager {| now := t; suspended := susp;
                                            timers := tm'; trace := tr' |})).
  { intros tm' tr' Htm' Hobs'. unfold loop_stage, rest_eager. cbn [run].
    apply stage_listener with (p := AfterEager) (others := susp)
                              (obs := [Start Eager; Finish Eager]);
      cbn [suspended timers trace now].
    - apply position_after_eager.
    - reflexivity.
    - exact Hsusp.
    - exact Htm'.
    - rewrite observable_snoc, Hobs' by reflexivity. reflexivity. }
  assert (Hafter_lazy :
            forall tm' tr', quiet_timers tm' ->
              observable tr' = [Start Eager; Finish Eager; Start Lazy] ->
              LoopStage (run RestLazy {| now := t; suspended := susp;
                                           timers := tm'; trace := tr' |})).
  { intros tm' tr' Htm' Hobs'. unfold loop_stage, rest_lazy. cbn [run].
    apply stage_listener with (p := AfterLazy) (others := susp)
                              (obs := [Start Eager; Finish Eager; Start Lazy; Finish Lazy]);
      cbn [suspended timers trace now].
    - apply position_after_lazy.
    - reflexivity.
    - exact Hsusp.
    - exact Htm'.
    - rewrite observable_snoc, Hobs' by reflexivity. reflexivity. }
  destruct Hpos as [k| |k|].
  - apply run_phase with (obs := [Start Eager]); auto using position_eager.
  - simpl. apply run_phase with (obs := [Start Eager; Finish Eager; Start Lazy]);
      auto using position_lazy.
    rewrite observable_snoc, Hobs by reflexivity. reflexivity.
  - apply run_phase with (obs := [Start Eager; Finish Eager; Start Lazy]);
      auto using position_lazy.
  - simpl. eapply stage_timer with (t := t + 3000) (td := t) (others := tm); simpl; eauto.
    + rewrite !observable_snoc, Hobs by reflexivity. reflexivity.
    + apply elem_of_app. left. apply elem_of_app. left. apply elem_of_app. right.
      constructor.
Qed.

Lemma run_quiet q susp tm tr t :
  Stage susp tm tr ->
  LoopStage (run (lift q) {| now := t; suspended := susp; timers := tm; trace := tr |}).
Proof.
  intros Hst.
  destruct (run_lift q {| now := t; suspended := susp; timers := tm; trace := tr |})
    as (ks & ts & tr' & Hks & Hts & Htr' & ->).
  unfold loop_stage. cbn [suspended timers trace now].
  apply stage_quiet_run; assumption.
Qed.

Lemma not_imported (tr : list (nat * event E)) obs t :
  observable tr = obs -> Import "./delayed.js" ∉ obs ->
  (t, Import "./delayed.js") ∉ tr.
Proof.
  intros Hobs Hnot Hin. apply Hnot. rewrite <- Hobs.
  eapply observable_elem; [exact Hin | reflexivity].
Qed.

Lemma no_import_yet (tr : list (nat * event E)) obs :
  observable tr = obs -> Import "./delayed.js" ∉ obs -> import_after_delay tr.
Proof.
  intros Hobs Hnot t Hin. exfalso. exact (not_imported tr obs t Hobs Hnot Hin).
Qed.

Ltac not_in_list :=
  let H := fresh in
  intros H;
  repeat (apply elem_of_cons in H as [H|H]; [discriminate H|]);
  apply elem_of_nil in H; exact H.

(** At every stage what has been shown is a beginning of the fixed
    order, and an import came late enough. *)
Lemma stage_order susp tm tr :
  Stage susp tm tr ->
  observable tr `prefix_of` phase_order codeBasePath /\ import_after_delay tr.
Proof.
  intros [p obs others susp' tm' tr' Hpos Hperm Hothers Htm Hobs
         |obs susp' tm' tr' Hfail Hsusp Htm Hobs
         |t td others susp' tm' tr' Hsusp Hperm Hothers Hobs Hstart Hlate
         |susp' tm' tr' Hsusp Htm Hobs Himp].
  - destruct Hpos; (split; [rewrite Hobs; eexists; reflexivity|]);
      (eapply no_import_yet; [exact Hobs | not_in_list]).
  - destruct Hfail as [-> | ->]; (split; [rewrite Hobs; eexists; reflexivity|]);
      (eapply no_import_yet; [exact Hobs | not_in_list]).
  - split; [rewrite Hobs; eexists; reflexivity|].
    eapply no_import_yet; [exact Hobs | simpl; not_in_list].
  - split; [rewrite Hobs; reflexivity | exact Himp].
Qed.

(** A turn of the loop leads from a stage to a stage. *)
Lemma turn_stage s s' : LoopStage s -> turn s s' -> LoopStage s'.
Proof.
  intros Hst Hturn. unfold loop_stage in Hst.
  destruct Hturn as [s k l1 l2 Hsusp|s t cb l1 l2 Htimers Hdue|s].
  - assert (Hmid : k :: (l1 ++ l2)%list ≡ₚ suspended s).
    { rewrite Hsusp. apply Permutation_middle. }
    destruct Hst as [p obs others susp tm tr Hpos Hperm Hothers Htm Hobs
                    |obs susp tm tr Hfail Hq Htm Hobs
                    |t td others susp tm tr Hq Hperm Hothers Hobs Hstart Hlate
                    |susp tm tr Hq Htm Hobs Himp].
    + rewrite Hperm in Hmid.
      apply Permutation_pick in Hmid as [[-> Hrest]|(k' & Hk' & Hrest)].
      * apply run_listener with (obs := obs); auto.
        rewrite Hrest. exact Hothers.
      * rewrite Hk' in Hothers. apply Forall_cons in Hothers as [[q ->] Hothers].
        apply run_quiet. eapply stage_listener; eauto.
    + rewrite <- Hmid in Hq. apply Forall_cons in Hq as [[q ->] Hq].
      apply run_quiet. eapply stage_failed; eauto.
    + rewrite <- Hmid in Hq. apply Forall_cons in Hq as [[q ->] Hq].
      apply run_quiet. eapply stage_timer; eauto.
    + rewrite <- Hmid in Hq. apply Forall_cons in Hq as [[q ->] Hq].
      apply run_quiet. eapply stage_imported; eauto.
  - assert (Hmid : (t, cb) :: (l1 ++ l2)%list ≡ₚ timers s).
    { rewrite Htimers. apply Permutation_middle. }
    destruct Hst as [p obs others susp tm tr Hpos Hperm Hothers Htm Hobs
                    |obs susp tm tr Hfail Hq Htm Hobs
                    |t0 td others susp tm tr Hq Hperm Hothers Hobs Hstart Hlate
                    |susp tm tr Hq Htm Hobs Himp].
    + unfold quiet_timers in Htm. rewrite <- Hmid in Htm.
      apply Forall_cons in Htm as [[q Hcb] Htm]. simpl in Hcb. subst cb.
      apply run_quiet. eapply stage_listener; eauto.
    + unfold quiet_timers in Htm. rewrite <- Hmid in Htm.
      apply Forall_cons in Htm as [[q Hcb] Htm]. simpl in Hcb. subst cb.
      apply run_quiet. eapply stage_failed; eauto.
    + rewrite Hperm in Hmid.
      apply Permutation_pick in Hmid as [[Heq Hrest]|(k' & Hk' & Hrest)].
      * injection Heq as -> ->.
        unfold loop_stage, import_delayed. cbn [run suspended timers trace now].
        apply stage_imported; auto.
        -- unfold quiet_timers. rewrite Hrest. exact Hothers.
        -- rewrite observable_snoc, Hobs by reflexivity. reflexivity.
        -- intros t' Hin. apply elem_of_app in Hin as [Hin|Hin].
           ++ exfalso. revert Hin. eapply not_imported; [exact Hobs|].
              simpl. not_in_list.
           ++ apply list_elem_of_singleton in Hin. injection Hin as ->.
              exists td. split; [apply elem_of_app; left; exact Hstart | lia].
      * unfold quiet_timers in Hothers. rewrite Hk' in Hothers.
        apply Forall_cons in Hothers as [[q Hcb] Hothers]. simpl in Hcb. subst cb.
        apply run_quiet. eapply stage_timer; eauto.
    + unfold quiet_timers in Htm. rewrite <- Hmid in Htm.
      apply Forall_cons in Htm as [[q Hcb] Htm]. simpl in Hcb. subst cb.
      apply run_quiet. eapply stage_imported; eauto.
  - exact Hst.
Qed.

Lemma page_load_stage t0 :
  LoopStage (page_load codeBasePath loadEager_body loadLazy_body t0).
Proof.
  unfold page_load. rewrite on_DOMContentLoaded_unfold. cbn [run now suspended timers trace].
  apply run_listener with (obs := [Start Eager]).
  - apply position_eager.
  - constructor.
  - constructor.
  - reflexivity.
Qed.

(** C3: at every point of every page load what the bootstrap has shown
    is a beginning of: [loadEager] starts, [loadEager] is over,
    [loadLazy] starts, [loadLazy] is over, [loadDelayed] starts, asks
    for the delayed style sheet and returns, [delayed.js] is imported.
    So [loadLazy] starts only after [loadEager] is over and
    [loadDelayed] only after [loadLazy] is over, while the import comes
    after [loadDelayed] and the listener have returned, from the timer,
    3000 ms or more after [loadDelayed] started. *)
Theorem bootstrap_phase_order t0 s :
  rtc turn (page_load codeBasePath loadEager_body loadLazy_body t0) s ->
  observable (trace s) `prefix_of` phase_order codeBasePath /\
  import_after_delay (trace s).
Proof.
  intros Hrun. apply (stage_order (suspended s) (timers s)).
  change (LoopStage s). revert s Hrun. apply rtc_ind_r.
  - apply page_load_stage.
  - intros s1 s2 _ Hturn IH. exact (turn_stage s1 s2 IH Hturn).
Qed.

(** Time can pass. *)
Lemma ticks n (s : loop (event E)) :
  rtc turn s {| now := now s + n; suspended := suspended s; timers := timers s;
                trace := trace s |}.
Proof.
  revert s. induction n as [|n IH]; intros s.
  - rewrite Nat.add_0_r. destruct s. apply rtc_refl.
  - eapply rtc_l; [apply turn_tick|].
    replace (now s + S n) with (S (now s) + n) by lia.
    apply (IH {| now := S (now s); suspended := suspended s; timers := timers s;
                 trace := trace s |}).
Qed.

(** Resumed whenever it waits, a body that does not fail reaches its
    end, and what follows it runs. *)
Lemma drive k rest (s : loop (event E)) :
  succeeds k ->
  exists s', rtc turn (run (seq (lift k) rest) s) (run rest s').
Proof.
  intros Hk. revert s. induction Hk as [|e k _ IH|k _ IH|cb d k _ IH]; intros s.
  - exists s. apply rtc_refl.
  - apply IH.
  - destruct (IH s) as [s' Hs']. exists s'.
    eapply rtc_l; [|exact Hs'].
    cbn [seq lift run].
    pose proof (turn_resume
                  {| now := now s; suspended := seq (lift k) rest :: suspended s;
                     timers := timers s; trace := trace s |}
                  (seq (lift k) rest) [] (suspended s) eq_refl) as Hturn.
    cbn in Hturn. destruct s. exact Hturn.
  - apply IH.
Qed.

Lemma stage_imported_all susp tm tr t :
  Stage susp tm tr -> (t, Import "./delayed.js") ∈ tr ->
  observable tr = phase_order codeBasePath.
Proof.
  intros [p obs others susp' tm' tr' Hpos Hperm Hothers Htm Hobs
         |obs susp' tm' tr' Hfail Hsusp Htm Hobs
         |t1 td others susp' tm' tr' Hsusp Hperm Hothers Hobs Hstart Hlate
         |susp' tm' tr' Hsusp Htm Hobs Himp] Hin.
  - exfalso. revert Hin. eapply not_imported; [exact Hobs|].
    destruct Hpos; not_in_list.
  - exfalso. revert Hin. eapply not_imported; [exact Hobs|].
    destruct Hfail as [-> | ->]; not_in_list.
  - exfalso. revert Hin. eapply not_imported; [exact Hobs|]. simpl. not_in_list.
  - exact Hobs.
Qed.

(** When no body fails, the page load can run through the whole order. *)
Lemma bootstrap_completes t0 :
  succeeds loadEager_body -> succeeds loadLazy_body ->
  exists s,
    rtc turn (page_load codeBasePath loadEager_body loadLazy_body t0) s /\
    observable (trace s) = phase_order codeBasePath.
Proof.
  intros Heager Hlazy.
  assert (Hrun : exists s t,
             rtc turn (page_load codeBasePath loadEager_body loadLazy_body t0) s /\
             (t, Import "./delayed.js") ∈ trace s).
  { unfold page_load. rewrite on_DOMContentLoaded_unfold. cbn [run].
    destruct (drive loadEager_body RestEager
                {| now := t0; suspended := []; timers := [];
                   trace := ([] ++ [(t0, Start Eager)])%list |} Heager) as [s1 H1].
    unfold rest_eager in H1 at 2. cbn [run now suspended timers trace] in H1.
    match type of H1 with rtc _ _ ?s =>
      pose proof (turn_resume s AfterEager [] (suspended s1) eq_refl) as T1 end.
    unfold after_eager in T1 at 2. cbn [run now suspended timers trace app] in T1.
    match type of T1 with turn _ (run _ ?s) =>
      destruct (drive loadLazy_body RestLazy s Hlazy) as [s2 H2] end.
    unfold rest_lazy in H2 at 2. cbn [run now suspended timers trace] in H2.
    match type of H2 with rtc _ _ ?s =>
      pose proof (turn_resume s AfterLazy [] (suspended s2) eq_refl) as T2 end.
    unfold after_lazy, loadDelayed, call in T2.
    cbn [run seq now suspended timers trace app] in T2.
    match type of T2 with turn _ ?s =>
      pose proof (ticks 3000 s) as H3;
      pose proof (turn_timer
                    {| now := now s + 3000; suspended := suspended s;
                       timers := timers s; trace := trace s |}
                    (now s2 + 3000) import_delayed [] (timers s2) eq_refl
                    (Nat.le_refl _)) as T3
    end.
    unfold import_delayed in T3 at 2. cbn [run now suspended timers trace app] in T3.
    cbn [now suspended timers trace] in H3.
    eexists _, _. split.
    - eapply rtc_trans; [exact H1|]. eapply rtc_l; [exact T1|].
      eapply rtc_trans; [exact H2|]. eapply rtc_l; [exact T2|].
      eapply rtc_trans; [exact H3|]. eapply rtc_once. exact T3.
    - cbn [trace]. apply elem_of_app. right. constructor. }
  destruct Hrun as (s & t & Hreach & Hin). exists s. split; [exact Hreach|].
  apply (stage_imported_all (suspended s) (timers s) (trace s) t); [|exact Hin].
  change (LoopStage s). revert s Hreach Hin. intros s Hreach _.
  revert s Hreach. apply rtc_ind_r.
  - apply page_load_stage.
  - intros s1 s2 _ Hturn IH. exact (turn_stage s1 s2 IH Hturn).
Qed.
End BootstrapFacts.

(** One run of the sample page load, from the call of the listener to
    the import. *)
Lemma sample_run :
  rtc turn (page_load EmptyString sample_eager sample_lazy 0) sample_end.
Proof.
  eapply rtc_l; [eapply (turn_resume _ _ [] _); reflexivity|]. cbn.
  eapply rtc_l; [eapply (turn_resume _ _ [] _); reflexivity|]. cbn.
  eapply rtc_trans; [apply (ticks 100)|]. cbn [now suspended timers trace].
  eapply rtc_l; [eapply (turn_timer _ _ _ [] _); [reflexivity | cbn; lia]|]. cbn.
  eapply rtc_l; [eapply (turn_resume _ _ [] _); reflexivity|]. cbn.
  eapply rtc_l; [eapply (turn_resume _ _ [] _); reflexivity|]. cbn.
  eapply rtc_trans; [apply (ticks 3000)|]. cbn [now suspended timers trace].
  eapply rtc_l; [eapply (turn_timer _ _ _ [] _); [reflexivity | cbn; lia]|]. cbn.
  apply rtc_refl.
Defined.

(** The order at the end of the sample run. *)
Lemma bootstrap_phase_order_witness :
  rtc turn (page_load EmptyString sample_eager sample_lazy 0) sample_end /\
  observable (trace sample_end) `prefix_of` phase_order EmptyString /\
  import_after_delay (trace sample_end).
Proof.
  split; [exact sample_run|].
  exact (bootstrap_phase_order EmptyString sample_eager sample_lazy 0 sample_end
           sample_run).
Defined.

(** * Further properties *)

(** ** The replacement of the hero script *)

Lemma prefix_DX_cons c rest :
  String.prefix "DX" (String c rest) = (Ascii.eqb c "D" && String.prefix "X" rest)%bool.
Proof.
  cbn [String.prefix]. destruct (Ascii.eqb_spec c "D") as [->|Hc].
  - destruct (ascii_dec "D" "D"); [reflexivity | congruence].
  - destruct (ascii_dec "D" c); [congruence | reflexivity].
Qed.

Lemma prefix_X_cons c rest :
  String.prefix "X" (String c rest) = Ascii.eqb c "X".
Proof.
  cbn [String.prefix]. destruct (Ascii.eqb_spec c "X") as [->|Hc].
  - destruct (ascii_dec "X" "X"); [destruct rest; reflexivity | congruence].
  - destruct (ascii_dec "X" c); [congruence | reflexivity].
Qed.

Lemma prefix_X_true rest :
  String.prefix "X" rest = true -> exists rest', rest = String "X" rest'.
Proof.
  destruct rest as [|c rest]; [discriminate|].
  rewrite prefix_X_cons. intros H. apply Ascii.eqb_eq in H. subst c. eauto.
Qed.

Lemma replace_DX_no_match c rest :
  String.prefix "DX" (String c rest) = false ->
  replace_DX (String c rest) = String c (replace_DX rest).
Proof.
  rewrite prefix_DX_cons. intros H. apply replace_DX_skip.
  destruct (Ascii.eqb_spec c "D") as [->|Hc]; [right | left; exact Hc].
  simpl in H. intros rest' ->. rewrite prefix_X_cons in H. discriminate.
Qed.

Lemma replace_DX_cases s :
  s = EmptyString \/
  (exists rest, s = String "D" (String "X" rest)) \/
  (exists c rest, s = String c rest /\ String.prefix "DX" s = false).
Proof.
  destruct s as [|c rest]; [left; reflexivity | right].
  destruct (String.prefix "DX" (String c rest)) eqn:H; [left | right; eauto].
  rewrite prefix_DX_cons in H. apply andb_true_iff in H as [Hc HX].
  apply Ascii.eqb_eq in Hc. subst c. apply prefix_X_true in HX as [rest' ->]. eauto.
Qed.

Lemma occurrences_DX_match rest :
  occurrences_DX (String "D" (String "X" rest)) = S (occurrences_DX rest).
Proof.
  cbn [occurrences_DX]. rewrite !prefix_DX_cons, prefix_X_cons. reflexivity.
Qed.

Lemma occurrences_DX_no_match c rest :
  String.prefix "DX" (String c rest) = false ->
  occurrences_DX (String c rest) = occurrences_DX rest.
Proof. intros H. cbn [occurrences_DX]. rewrite H. reflexivity. Qed.

(** A schema for the replacement: the empty string, a string that
    starts with [DX], a string that does not. *)
Lemma replace_DX_ind (P : string -> Prop) :
  P EmptyString ->
  (forall rest, P rest -> P (String "D" (String "X" rest))) ->
  (forall c rest, String.prefix "DX" (String c rest) = false -> P rest ->
                  P (String c rest)) ->
  forall s, P s.
Proof.
  intros Hnil Hmatch Hskip s.
  remember (String.length s) as n eqn:Hn. revert s Hn.
  induction n as [n IH] using lt_wf_ind. intros s Hn.
  destruct (replace_DX_cases s) as [->|[[rest ->]|(c & rest & -> & Hno)]].
  - exact Hnil.
  - apply Hmatch. apply (IH (String.length rest)); [simpl in Hn; lia | reflexivity].
  - apply Hskip; [exact Hno|].
    apply (IH (String.length rest)); [simpl in Hn; lia | reflexivity].
Qed.

Lemma length_append s t :
  String.length (s +:+ t) = String.length s + String.length t.
Proof. induction s as [|c s IH]; simpl; [reflexivity | rewrite IH; reflexivity]. Qed.

Lemma replace_DX_length s :
  String.length (replace_DX s) = String.length s + 24 * occurrences_DX s.
Proof.
  induction s as [|rest IH|c rest Hno IH] using replace_DX_ind.
  - reflexivity.
  - rewrite replace_DX_match, occurrences_DX_match, length_append, IH.
    change (String.length dx_span) with 26. simpl String.length. lia.
  - rewrite replace_DX_no_match, occurrences_DX_no_match by exact Hno.
    simpl String.length. rewrite IH. lia.
Qed.

Lemma replace_DX_head_X rest :
  String.prefix "X" (replace_DX rest) = String.prefix "X" rest.
Proof.
  destruct (replace_DX_cases rest) as [->|[[r ->]|(c & r & -> & Hno)]].
  - reflexivity.
  - reflexivity.
  - rewrite replace_DX_no_match by exact Hno. rewrite !prefix_X_cons. reflexivity.
Qed.

Lemma replace_DX_occurrences s :
  occurrences_DX (replace_DX s) = occurrences_DX s.
Proof.
  induction s as [|rest IH|c rest Hno IH] using replace_DX_ind.
  - reflexivity.
  - rewrite replace_DX_match, occurrences_DX_match.
    change (occurrences_DX (dx_span +:+ replace_DX rest))
      with (S (occurrences_DX (replace_DX rest))).
    rewrite IH. reflexivity.
  - rewrite replace_DX_no_match, !occurrences_DX_no_match; try exact Hno; [exact IH|].
    rewrite prefix_DX_cons in *. rewrite replace_DX_head_X. exact Hno.
Qed.

(** X1: the replacement gives the markup back unchanged exactly when
    [DX] stands nowhere in it. *)
Theorem replace_DX_fixed_iff s :
  replace_DX s = s <-> occurrences_DX s = 0.
Proof.
  split.
  - intros H. pose proof (replace_DX_length s) as Hlen. rewrite H in Hlen. lia.
  - induction s as [|rest IH|c rest Hno IH] using replace_DX_ind.
    + reflexivity.
    + rewrite occurrences_DX_match. discriminate.
    + rewrite occurrences_DX_no_match by exact Hno. intros H.
      rewrite replace_DX_no_match by exact Hno. rewrite (IH H). reflexivity.
Qed.

(** X2: every run of the replacement keeps the number of places where
    [DX] stands and adds 24 characters for each of them: after [n] runs
    the markup is [24 * n] characters longer per [DX]. *)
Theorem replace_DX_iterated n s :
  occurrences_DX (Nat.iter n replace_DX s) = occurrences_DX s /\
  String.length (Nat.iter n replace_DX s)
  = String.length s + 24 * n * occurrences_DX s.
Proof.
  induction n as [|n [IHocc IHlen]]; simpl.
  - split; [reflexivity | lia].
  - rewrite replace_DX_occurrences, replace_DX_length, IHocc, IHlen.
    split; [reflexivity | lia].
Qed.

(** ** The guard of the hero script *)

Lemma concat_empty_app l1 l2 :
  String.concat EmptyString (l1 ++ l2)%list
  = String.concat EmptyString l1 +:+ String.concat EmptyString l2.
Proof.
  induction l1 as [|x l1 IH]; [reflexivity|].
  change ((x :: l1) ++ l2)%list with (x :: (l1 ++ l2))%list.
  rewrite !concat_empty_cons, IH, append_assoc. reflexivity.
Qed.

Lemma textOnly_app k1 k2 : textOnly (k1 ++ k2)%list = textOnly k1 +:+ textOnly k2.
Proof.
  rewrite !textOnly_direct_text. unfold direct_text.
  rewrite omap_app. apply concat_empty_app.
Qed.

Lemma textOnly_cons_text d kids : textOnly (Text d :: kids) = d +:+ textOnly kids.
Proof.
  rewrite !textOnly_direct_text.
  change (direct_text (Text d :: kids)) with (d :: direct_text kids).
  apply concat_empty_cons.
Qed.

Lemma textOnly_cons_other n kids :
  (forall d, n <> Text d) -> textOnly (n :: kids) = textOnly kids.
Proof.
  intros Hn. rewrite !textOnly_direct_text.
  destruct n as [d|d|t a sub]; [exfalso; exact (Hn d eq_refl) | reflexivity | reflexivity].
Qed.

(** X3: an element or a comment among the children of the heading,
    wherever it stands and whatever it holds, does not change the text
    the guard looks at. *)
Theorem cleanText_ignores_markup t a k1 k2 t' a' sub d :
  cleanText (Element t a (k1 ++ Element t' a' sub :: k2)) = cleanText (Element t a (k1 ++ k2)) /\
  cleanText (Element t a (k1 ++ Comment d :: k2)) = cleanText (Element t a (k1 ++ k2)).
Proof.
  unfold cleanText. cbn [childNodes].
  rewrite !textOnly_app, !textOnly_cons_other by discriminate.
  split; reflexivity.
Qed.

Lemma remove_nrt_app a b : remove_nrt (a +:+ b) = remove_nrt a +:+ remove_nrt b.
Proof.
  induction a as [|c a IH]; [reflexivity|]. simpl.
  destruct (_ || _)%bool; simpl; rewrite IH; reflexivity.
Qed.

Lemma remove_nrt_whitespace l :
  all_whitespace l = true -> all_whitespace (remove_nrt l) = true.
Proof.
  induction l as [|c l IH]; [reflexivity|]. simpl.
  intros H. apply andb_true_iff in H as [Hc Hl].
  destruct (_ || _)%bool; simpl; [|rewrite Hc]; apply IH, Hl.
Qed.

Lemma trimStart_whitespace l s :
  all_whitespace l = true -> trimStart (l +:+ s) = trimStart s.
Proof.
  induction l as [|c l IH]; [reflexivity|]. simpl.
  intros H. apply andb_true_iff in H as [Hc Hl]. rewrite Hc. apply IH, Hl.
Qed.

Lemma trimEnd_all_whitespace r : all_whitespace r = true -> trimEnd r = EmptyString.
Proof.
  induction r as [|c r IH]; [reflexivity|]. simpl.
  intros H. apply andb_true_iff in H as [Hc Hr]. rewrite (IH Hr), Hc. reflexivity.
Qed.

Lemma trimEnd_whitespace s r :
  all_whitespace r = true -> trimEnd (s +:+ r) = trimEnd s.
Proof.
  intros Hr. induction s as [|c s IH].
  - simpl. apply trimEnd_all_whitespace, Hr.
  - change (String c s +:+ r) with (String c (s +:+ r)).
    rewrite !trimEnd_cons, IH. reflexivity.
Qed.

Lemma trimStart_all_whitespace l : all_whitespace l = true -> trimStart l = EmptyString.
Proof.
  induction l as [|c l IH]; [reflexivity|]. simpl.
  intros H. apply andb_true_iff in H as [Hc Hl]. rewrite Hc. apply IH, Hl.
Qed.

Lemma trim_whitespace_right s r :
  all_whitespace r = true -> trim (s +:+ r) = trim s.
Proof.
  intros Hr. unfold trim. induction s as [|c s IH].
  - simpl. rewrite (trimStart_all_whitespace r Hr). reflexivity.
  - change (String c s +:+ r) with (String c (s +:+ r)). cbn [trimStart].
    destruct (is_js_whitespace c); [exact IH|].
    change (String c (s +:+ r)) with (String c s +:+ r).
    apply trimEnd_whitespace, Hr.
Qed.

(** White space around a string is trimmed with it. *)
Lemma trim_padding l s r :
  all_whitespace l = true -> all_whitespace r = true ->
  trim (l +:+ s +:+ r) = trim s.
Proof.
  intros Hl Hr. rewrite <- (trim_whitespace_right s r Hr).
  unfold trim. rewrite trimStart_whitespace by exact Hl. reflexivity.
Qed.

(** X4: white space in text nodes before and after the children of the
    heading does not change the text the guard looks at. *)
Theorem cleanText_padding t a l r kids :
  all_whitespace l = true -> all_whitespace r = true ->
  cleanText (Element t a (Text l :: kids ++ [Text r])) = cleanText (Element t a kids).
Proof.
  intros Hl Hr. unfold cleanText. cbn [childNodes].
  rewrite textOnly_cons_text, textOnly_app, textOnly_cons_text.
  change (textOnly []) with EmptyString. rewrite append_nil_r.
  rewrite !remove_nrt_app.
  apply trim_padding; apply remove_nrt_whitespace; assumption.
Qed.

(** A line of white space before a heading text and a tab after it. *)
Lemma cleanText_padding_witness :
  all_whitespace (String newline "  ") = true /\
  all_whitespace (String tab EmptyString) = true /\
  cleanText (Element "h1" [] (Text (String newline "  ")
                                :: [Element "picture" [] []; Text "FeDX rocks"]
                                ++ [Text (String tab EmptyString)]))
  = cleanText (Element "h1" [] [Element "picture" [] []; Text "FeDX rocks"]).
Proof.
  split; [reflexivity|]. split; [reflexivity|].
  apply (cleanText_padding "h1" [] (String newline "  ") (String tab EmptyString)
           [Element "picture" [] []; Text "FeDX rocks"]); reflexivity.
Defined.

Lemma remove_nrt_free s : free_of_nrt (remove_nrt s) = true.
Proof.
  induction s as [|c s IH]; [reflexivity|]. simpl.
  fold (is_nrt c). destruct (is_nrt c) eqn:Hc; [exact IH|].
  simpl. rewrite Hc, IH. reflexivity.
Qed.

Lemma trimStart_free s : free_of_nrt s = true -> free_of_nrt (trimStart s) = true.
Proof.
  induction s as [|c s IH]; [reflexivity|]. intros H. cbn [trimStart].
  destruct (is_js_whitespace c); [|exact H].
  simpl in H. apply andb_true_iff in H as [_ H]. apply IH, H.
Qed.

Lemma trimEnd_free s : free_of_nrt s = true -> free_of_nrt (trimEnd s) = true.
Proof.
  induction s as [|c s IH]; [reflexivity|]. intros H.
  simpl in H. apply andb_true_iff in H as [Hc Hs].
  rewrite trimEnd_cons. specialize (IH Hs).
  destruct (trimEnd s) as [|c' t].
  - destruct (is_js_whitespace c); [reflexivity|]. simpl. rewrite Hc. reflexivity.
  - cbn [free_of_nrt] in *. rewrite Hc. exact IH.
Qed.

(** X5: the text the guard looks at holds no newline, carriage return
    or tab, and neither starts nor ends with white space. *)
Theorem cleanText_normal_form h1 :
  free_of_nrt (cleanText h1) = true /\
  starts_with_whitespace (cleanText h1) = false /\
  ends_with_whitespace (cleanText h1) = false.
Proof.
  unfold cleanText. split.
  - apply trimEnd_free, trimStart_free, remove_nrt_free.
  - destruct (trim_spec (remove_nrt (textOnly (childNodes h1))))
      as (l & r & _ & _ & _ & Hstart & Hend).
    split; assumption.
Qed.

(** ** The list-based block pattern, further *)

Section ListBlockMore.
Context {engine : HtmlEngine}.

Lemma decorate_list_Element t a kids :
  decorate_list (Element t a kids)
  = Normal (Element t a [Element "ul" []
                           (map li_of_row (element_children (Element t a kids)))]).
Proof.
  unfold decorate_list, createElement. rewrite fold_add_row. reflexivity.
Qed.


(** X7: a block without element children, empty or holding text and
    comments only, is left with an empty [ul]: its text is dropped. *)
Theorem decorate_list_without_rows t a kids :
  element_children (Element t a kids) = [] ->
  decorate_list (Element t a kids) = Normal (Element t a [Element "ul" [] []]).
Proof. intros H. rewrite decorate_list_Element, H. reflexivity. Qed.
End ListBlockMore.

(** A block that holds a sentence and a comment. *)
Lemma decorate_list_without_rows_witness :
  element_children (Element "div" [("class", "cards block")]
                            [Text "Coming soon"; Comment "no rows yet"]) = [] /\
  @decorate_list reference_engine
    (Element "div" [("class", "cards block")] [Text "Coming soon"; Comment "no rows yet"])
  = Normal (Element "div" [("class", "cards block")] [Element "ul" [] []]).
Proof.
  split; [reflexivity|].
  apply (@decorate_list_without_rows reference_engine). reflexivity.
Defined.

(** ** The asynchronous data loading pattern, further *)

Section AsyncBlockMore.
Context {response data : Type}.
Variable network : option string -> completion response.
Variable json : response -> completion data.
Variable renderData : node -> data -> node * option exn.

(** X8: on a block that is an element, whatever the network answers
    and whatever [renderData] does, the decorator ends normally, and it
    has sent exactly one request, to the [data-source] of the block,
    also when the block has none.  On a node that is no element it
    throws a [TypeError], sends no request and changes nothing. *)
Theorem decorate_async_settles block sent :
  match block with
  | Element _ _ _ =>
      exists b,
        decorate_async network json renderData {| block_of := block; requests := sent |}
        = (Normal tt,
           {| block_of := b; requests := (sent ++ [dataset_source block])%list |})
  | _ =>
      exists message,
        decorate_async network json renderData {| block_of := block; requests := sent |}
        = (Throw (TypeError message), {| block_of := block; requests := sent |})
  end.
Proof.
  destruct block as [d|d|t a kids]; [eexists; reflexivity | eexists; reflexivity |].
  unfold decorate_async, try_catch, bind, fetch, response_json, call_renderData,
    assign_textContent.
  cbn [block_of requests].
  destruct (network (dataset_source (Element t a kids))) as [r|e];
    [|eexists; reflexivity].
  destruct (json r) as [d|e]; [|eexists; reflexivity].
  destruct (renderData (Element t a kids) d) as [b [e|]]; eexists; reflexivity.
Qed.

(** X9: on a block that is an element, when the data arrives, the block
    is what [renderData] leaves if it returns; if it throws, the error
    is caught like a network failure: the children it had rendered are
    replaced by the text [Failed to load content], while the attributes
    it had set stay. *)
Theorem decorate_async_render_outcome t a kids sent r d rendered thrown :
  let block := Element t a kids in
  network (dataset_source block) = Normal r ->
  json r = Normal d ->
  renderData block d = (rendered, thrown) ->
  decorate_async network json renderData {| block_of := block; requests := sent |}
  = (Normal tt,
     {| block_of := match thrown with
                    | Some _ => set_textContent "Failed to load content" rendered
                    | None => rendered
                    end;
        requests := (sent ++ [dataset_source block])%list |}).
Proof.
  intros block Hnet Hjson Hrender. subst block.
  unfold decorate_async, try_catch, bind, fetch, response_json, call_renderData,
    assign_textContent.
  cbn [block_of requests]. rewrite Hnet, Hjson. cbn [block_of requests].
  rewrite Hrender. destruct thrown; reflexivity.
Qed.
End AsyncBlockMore.

(** A [renderData] that throws after its first paragraph. *)
Lemma decorate_async_render_outcome_witness :
  network_up (dataset_source data_block) = Normal 200 /\
  render_then_throw data_block 200
  = (Element "div" [("data-rendered", "partly"); ("class", "feed block");
                    ("data-source", "/feed.json")]
             [Element "p" [] [Text "first item"]],
     Some (TypeError "data.items is undefined")) /\
  decorate_async network_up (fun r : nat => Normal r) render_then_throw
                 {| block_of := data_block; requests := [] |}
  = (Normal tt,
     {| block_of := Element "div" [("data-rendered", "partly"); ("class", "feed block");
                                   ("data-source", "/feed.json")]
                            [Text "Failed to load content"];
        requests := [Some "/feed.json"] |}).
Proof.
  split; [reflexivity|]. split; [reflexivity|].
  exact (decorate_async_render_outcome network_up (fun r : nat => Normal r)
           render_then_throw "div"
           [("class", "feed block"); ("data-source", "/feed.json")]
           [Element "div" [] [Text "loading"]] [] 200 200 _ _
           eq_refl eq_refl eq_refl).
Defined.

(** ** The interactive block pattern *)

Lemma tokens_from_token cur tok s :
  no_whitespace tok = true ->
  tokens_from cur (tok +:+ s) = tokens_from (cur +:+ tok) s.
Proof.
  revert cur. induction tok as [|c tok IH]; intros cur Htok.
  - rewrite append_nil_r. reflexivity.
  - simpl in Htok. apply andb_true_iff in Htok as [Hc Htok].
    apply negb_true_iff in Hc.
    change (String c tok +:+ s) with (String c (tok +:+ s)).
    cbn [tokens_from]. rewrite Hc, (IH _ Htok), append_assoc. reflexivity.
Qed.

(** Parsing the serialisation of class tokens gives the tokens back. *)
Lemma tokens_from_concat set :
  Forall (fun tok => is_token tok = true) set ->
  tokens_from EmptyString (String.concat " " set) = set.
Proof.
  induction 1 as [|x set Hx Hset IH]; [reflexivity|].
  unfold is_token in Hx. apply andb_true_iff in Hx as [Hne Hx].
  apply negb_true_iff in Hne.
  destruct set as [|y set].
  - simpl String.concat. rewrite <- (append_nil_r x) at 1.
    rewrite (tokens_from_token _ _ _ Hx). simpl. rewrite Hne. reflexivity.
  - rewrite concat_cons, (tokens_from_token _ _ _ Hx).
    change (" " +:+ String.concat " " (y :: set))
      with (String " " (String.concat " " (y :: set))).
    cbn [tokens_from]. change (is_ascii_whitespace " ") with true.
    cbn [String.append]. rewrite Hne, IH. reflexivity.
Qed.

Lemma no_whitespace_snoc cur c :
  no_whitespace cur = true -> is_ascii_whitespace c = false ->
  no_whitespace (cur +:+ String c EmptyString) = true.
Proof.
  intros Hcur Hc. induction cur as [|x cur IH]; simpl in *.
  - rewrite Hc. reflexivity.
  - apply andb_true_iff in Hcur as [Hx Hcur]. rewrite Hx, (IH Hcur). reflexivity.
Qed.

Lemma snoc_not_empty cur c : String.eqb (cur +:+ String c EmptyString) EmptyString = false.
Proof. destruct cur; reflexivity. Qed.

Lemma tokens_from_tokens cur s :
  no_whitespace cur = true ->
  Forall (fun tok => is_token tok = true) (tokens_from cur s).
Proof.
  revert cur. induction s as [|c s IH]; intros cur Hcur; cbn [tokens_from].
  - destruct (String.eqb cur EmptyString) eqn:He; constructor; [|constructor].
    unfold is_token. rewrite He, Hcur. reflexivity.
  - destruct (is_ascii_whitespace c) eqn:Hc.
    + destruct (String.eqb cur EmptyString) eqn:He; [apply IH; reflexivity|].
      constructor; [|apply IH; reflexivity].
      unfold is_token. rewrite He, Hcur. reflexivity.
    + apply IH, no_whitespace_snoc; assumption.
Qed.

Lemma classList_tokens a : Forall (fun tok => is_token tok = true) (classList a).
Proof.
  unfold classList. destruct (getAttribute "class" a); [|constructor].
  apply tokens_from_tokens. reflexivity.
Qed.

Lemma Forall_filter_tokens (P : string -> Prop) f l :
  Forall P l -> Forall P (List.filter f l).
Proof.
  induction 1 as [|x l Hx _ IH]; simpl; [constructor|].
  destruct (f x); [constructor|]; assumption.
Qed.

Lemma ordered_set_tokens l :
  Forall (fun tok => is_token tok = true) l ->
  Forall (fun tok => is_token tok = true) (ordered_set l).
Proof.
  induction 1 as [|x l Hx _ IH]; simpl; constructor; [exact Hx|].
  apply Forall_filter_tokens, IH.
Qed.

Lemma mem_string_filter tok f l :
  mem_string tok (List.filter f l) = (mem_string tok l && f tok)%bool.
Proof.
  unfold mem_string. induction l as [|x l IH]; [reflexivity|]. simpl.
  destruct (f x) eqn:Hf; simpl; rewrite IH;
    destruct (String.eqb_spec tok x) as [->|Hne]; simpl; try reflexivity.
  - rewrite Hf. reflexivity.
  - rewrite Hf, andb_false_r. reflexivity.
Qed.

Lemma mem_string_ordered_set tok l : mem_string tok (ordered_set l) = mem_string tok l.
Proof.
  induction l as [|x l IH]; [reflexivity|].
  cbn [ordered_set]. unfold mem_string in *. cbn [existsb].
  fold (mem_string tok (List.filter (fun y => negb (String.eqb x y)) (ordered_set l))).
  rewrite mem_string_filter. unfold mem_string. rewrite IH.
  destruct (String.eqb_spec tok x) as [->|Hne]; [reflexivity|].
  apply not_eq_sym, String.eqb_neq in Hne. rewrite Hne, andb_true_r. reflexivity.
Qed.

Lemma mem_string_app tok l1 l2 :
  mem_string tok (l1 ++ l2)%list = (mem_string tok l1 || mem_string tok l2)%bool.
Proof. apply existsb_app. Qed.

Lemma getAttribute_setAttribute name value a :
  getAttribute name (setAttribute name value a) = Some value.
Proof.
  induction a as [|[k v] a IH]; simpl.
  - rewrite String.eqb_refl. reflexivity.
  - destruct (String.eqb k name) eqn:Hk; simpl; rewrite Hk; [reflexivity | exact IH].
Qed.

Lemma getAttribute_setAttribute_ne name value a k :
  k <> name -> getAttribute k (setAttribute name value a) = getAttribute k a.
Proof.
  intros Hne. induction a as [|[k' v] a IH]; simpl.
  - destruct (String.eqb_spec name k); [congruence | reflexivity].
  - destruct (String.eqb_spec k' name) as [->|Hk']; simpl.
    + destruct (String.eqb_spec name k); [congruence | reflexivity].
    + rewrite IH. reflexivity.
Qed.

Lemma setAttribute_setAttribute name v1 v2 a :
  setAttribute name v2 (setAttribute name v1 a) = setAttribute name v2 a.
Proof.
  induction a as [|[k v] a IH]; simpl.
  - rewrite String.eqb_refl. reflexivity.
  - destruct (String.eqb k name) eqn:Hk; simpl; rewrite Hk; [reflexivity|].
    rewrite IH. reflexivity.
Qed.

(** The class list after a toggle. *)
Lemma classList_toggle_classList token t a kids :
  is_token token = true ->
  exists a',
    classList_toggle token (Element t a kids) = Element t a' kids /\
    (exists v, a' = setAttribute "class" v a) /\
    classList a' =
      (if mem_string token (classList a)
       then remove_token token (ordered_set (classList a))
       else ordered_set (classList a) ++ [token])%list.
Proof.
  intros Htok. eexists. split; [reflexivity|]. split; [eexists; reflexivity|].
  unfold classList at 1. rewrite getAttribute_setAttribute.
  rewrite mem_string_ordered_set.
  apply tokens_from_concat.
  pose proof (ordered_set_tokens _ (classList_tokens a)) as Hset.
  destruct (mem_string token (classList a)).
  - apply Forall_filter_tokens, Hset.
  - apply Forall_app. split; [exact Hset|]. constructor; [exact Htok | constructor].
Qed.

Lemma matches_class tok t a kids :
  matches (ClassSel tok) (Element t a kids) = mem_string tok (classList a).
Proof. reflexivity. Qed.

(** One toggle turns the membership of the token and of no other. *)
Lemma classList_toggle_membership token tok t a kids :
  is_token token = true ->
  matches (ClassSel tok) (classList_toggle token (Element t a kids))
  = if String.eqb token tok
    then negb (matches (ClassSel tok) (Element t a kids))
    else matches (ClassSel tok) (Element t a kids).
Proof.
  intros Htok.
  destruct (classList_toggle_classList token t a kids Htok) as (a' & -> & _ & Hcl).
  rewrite !matches_class, Hcl.
  destruct (mem_string token (classList a)) eqn:Hin.
  - unfold remove_token. rewrite mem_string_filter, mem_string_ordered_set.
    destruct (String.eqb_spec token tok) as [->|Hne]; simpl.
    + rewrite Hin. reflexivity.
    + apply andb_true_r.
  - rewrite mem_string_app, mem_string_ordered_set.
    unfold mem_string at 2. cbn [existsb]. rewrite orb_false_r.
    destruct (String.eqb_spec token tok) as [->|Hne].
    + rewrite Hin, String.eqb_refl. reflexivity.
    + apply not_eq_sym, String.eqb_neq in Hne. rewrite Hne, orb_false_r. reflexivity.
Qed.

Lemma update_node_at f p d c :
  get_node p d = Some c -> get_node p (update_node f p d) = Some (f c).
Proof.
  revert d. induction p as [|i p IH]; intros d Hget.
  - injection Hget as <-. reflexivity.
  - destruct d as [s|s|t a kids]; try discriminate.
    rewrite get_node_cons in Hget. cbn [childNodes] in Hget.
    destruct (kids !! i) as [k|] eqn:Hk; [|discriminate].
    cbn [update_node]. rewrite get_node_cons. cbn [childNodes].
    rewrite list_lookup_alter_eq, Hk. simpl. apply IH, Hget.
Qed.

Lemma update_node_const f p d c :
  get_node p d = Some c -> update_node f p d = update_node (fun _ => f c) p d.
Proof.
  revert d. induction p as [|i p IH]; intros d Hget.
  - injection Hget as <-. reflexivity.
  - destruct d as [s|s|t a kids]; try reflexivity.
    rewrite get_node_cons in Hget. cbn [childNodes] in Hget.
    cbn [update_node]. f_equal. apply list_alter_ext; [|reflexivity].
    intros k Hk. rewrite Hk in Hget. apply IH, Hget.
Qed.

Lemma update_node_same p d c :
  get_node p d = Some c -> update_node (fun _ => c) p d = d.
Proof.
  revert d. induction p as [|i p IH]; intros d Hget.
  - injection Hget as <-. reflexivity.
  - destruct d as [s|s|t a kids]; try reflexivity.
    rewrite get_node_cons in Hget. cbn [childNodes] in Hget.
    cbn [update_node]. f_equal.
    apply list_eq. intros j. destruct (decide (i = j)) as [<-|Hne].
    + rewrite list_lookup_alter_eq. destruct (kids !! i) as [k|]; [|reflexivity].
      simpl. f_equal. apply IH, Hget.
    + apply list_lookup_alter_ne, Hne.
Qed.

Lemma update_node_twice f g p d :
  update_node f p (update_node g p d) = update_node (fun x => f (g x)) p d.
Proof.
  revert d. induction p as [|i p IH]; intros d; [reflexivity|].
  destruct d as [s|s|t a kids]; try reflexivity.
  cbn [update_node]. f_equal. rewrite list_alter_alter_eq.
  apply list_alter_ext; [|reflexivity]. intros k _. apply IH.
Qed.

Lemma decorate_interactive_content block l :
  decorate_interactive block = Normal [l] ->
  listener_content l = querySelector (ClassSel "content") block.
Proof.
  unfold decorate_interactive, member.
  destruct (querySelector (TypeSel "button") block); [|discriminate].
  intros H. injection H as <-. reflexivity.
Qed.

(** X10: the decorator throws exactly when the block holds no [button]
    element; with a button it registers one listener, on the first
    button, whether a [.content] element is there or not. *)
Theorem decorate_interactive_needs_button block :
  ((exists e, decorate_interactive block = Throw e) <->
   none_below (TypeSel "button") block) /\
  (forall p b, first_match (TypeSel "button") block p b ->
     decorate_interactive block
     = Normal [{| listener_target := p;
                  listener_content := querySelector (ClassSel "content") block |}]).
Proof.
  unfold decorate_interactive, member. split; [split|].
  - intros [e He]. apply querySelector_None.
    destruct (querySelector (TypeSel "button") block); [discriminate | reflexivity].
  - intros Hnone. apply querySelector_None in Hnone. rewrite Hnone. eauto.
  - intros p b Hfirst. apply querySelector_Some in Hfirst. rewrite Hfirst. reflexivity.
Qed.

(** X11: a block with a button and without [.content] element is
    decorated without error, and then every click throws. *)
Theorem on_click_without_content block l clicked :
  decorate_interactive block = Normal [l] ->
  none_below (ClassSel "content") block ->
  exists e, on_click l clicked = Throw e.
Proof.
  intros Hdec Hnone. apply decorate_interactive_content in Hdec.
  apply querySelector_None in Hnone. unfold on_click.
  rewrite Hdec, Hnone. simpl. eauto.
Qed.

Lemma on_click_without_content_witness :
  decorate_interactive contentless_block
  = Normal [{| listener_target := [0]; listener_content := None |}] /\
  none_below (ClassSel "content") contentless_block /\
  exists e, on_click {| listener_target := [0]; listener_content := None |}
                     contentless_block = Throw e.
Proof.
  assert (Hnone : none_below (ClassSel "content") contentless_block).
  { apply querySelector_None. reflexivity. }
  split; [reflexivity|]. split; [exact Hnone|].
  exact (on_click_without_content contentless_block _ contentless_block eq_refl Hnone).
Defined.

(** What [n] clicks leave: the block with, at the place of the content
    element, that element with another value of its [class]. *)
Lemma clicks_invariant l block p c0 t a kids n :
  listener_content l = Some (p, c0) ->
  get_node p block = Some (Element t a kids) ->
  exists a',
    clicks n l block = Normal (update_node (fun _ => Element t a' kids) p block) /\
    (a' = a \/ exists v, a' = setAttribute "class" v a) /\
    forall tok,
      mem_string tok (classList a')
      = if String.eqb "expanded" tok
        then xorb (mem_string tok (classList a)) (Nat.odd n)
        else mem_string tok (classList a).
Proof.
  intros Hl Hget. induction n as [|n (a' & Hrun & Hattr & Hmem)].
  - exists a. split; [|split].
    + simpl. rewrite (update_node_same p block _ Hget). reflexivity.
    + left. reflexivity.
    + intros tok. destruct (String.eqb "expanded" tok); [|reflexivity].
      change (Nat.odd 0) with false. rewrite xorb_false_r. reflexivity.
  - destruct (classList_toggle_classList "expanded" t a' kids eq_refl)
      as (a'' & Htoggle & [v Hv] & _).
    exists a''. split; [|split].
    + cbn [clicks]. rewrite Hrun. unfold on_click, member. rewrite Hl. cbn [fst].
      rewrite update_node_twice, Htoggle. reflexivity.
    + right. destruct Hattr as [->|[v' ->]]; [eauto|].
      rewrite setAttribute_setAttribute in Hv. eauto.
    + intros tok.
      pose proof (classList_toggle_membership "expanded" tok t a' kids eq_refl) as H.
      rewrite Htoggle, !matches_class in H. rewrite H, Hmem.
      destruct (String.eqb "expanded" tok); [|reflexivity].
      rewrite Nat.odd_succ, <- Nat.negb_odd.
      destruct (mem_string tok (classList a)), (Nat.odd n); reflexivity.
Qed.

Lemma content_is_element block p c :
  querySelector (ClassSel "content") block = Some (p, c) ->
  get_node p block = Some c /\ exists t a kids, c = Element t a kids.
Proof.
  intros H. apply querySelector_Some in H as (_ & Hget & Hm & _).
  split; [exact Hget|]. destruct c as [d|d|t a kids]; try discriminate. eauto.
Qed.

(** X12: after [n] clicks the content element has the class [expanded]
    exactly when it had it before and [n] is even, or had it not and
    [n] is odd; every other class it has or has not as before. *)
Theorem clicks_toggle_expanded block l p c n :
  decorate_interactive block = Normal [l] ->
  listener_content l = Some (p, c) ->
  exists after c',
    clicks n l block = Normal after /\
    get_node p after = Some c' /\
    matches (ClassSel "expanded") c'
    = xorb (matches (ClassSel "expanded") c) (Nat.odd n) /\
    forall tok, tok <> "expanded" ->
                matches (ClassSel tok) c' = matches (ClassSel tok) c.
Proof.
  intros Hdec Hl. pose proof (decorate_interactive_content block l Hdec) as Hq.
  rewrite Hl in Hq. symmetry in Hq.
  apply content_is_element in Hq as (Hget & t & a & kids & ->).
  destruct (clicks_invariant l block p _ t a kids n Hl Hget) as (a' & Hrun & _ & Hmem).
  eexists _, (Element t a' kids). split; [exact Hrun|]. split; [|split].
  - rewrite (update_node_at _ p block _ Hget). reflexivity.
  - rewrite !matches_class, Hmem. reflexivity.
  - intros tok Hne. rewrite !matches_class, Hmem.
    destruct (String.eqb_spec "expanded" tok); [congruence | reflexivity].
Qed.

(** X13: clicks change nothing but the value of the [class] attribute
    of the content element: after [n] clicks the block is as it was, or
    as it was up to that value. *)
Theorem clicks_frame block l p c n :
  decorate_interactive block = Normal [l] ->
  listener_content l = Some (p, c) ->
  exists after,
    clicks n l block = Normal after /\
    (after = block \/
     exists t a kids v,
       c = Element t a kids /\
       after = update_node (fun _ => Element t (setAttribute "class" v a) kids) p block).
Proof.
  intros Hdec Hl. pose proof (decorate_interactive_content block l Hdec) as Hq.
  rewrite Hl in Hq. symmetry in Hq.
  apply content_is_element in Hq as (Hget & t & a & kids & ->).
  destruct (clicks_invariant l block p _ t a kids n Hl Hget)
    as (a' & Hrun & [->|[v ->]] & _).
  - eexists. split; [exact Hrun|]. left. apply update_node_same, Hget.
  - eexists. split; [exact Hrun|]. right. exists t, a, kids, v. split; reflexivity.
Qed.

(** Three clicks on a block whose content element has two classes. *)
Lemma clicks_toggle_expanded_witness :
  decorate_interactive accordion_block = Normal [accordion_listener] /\
  listener_content accordion_listener = Some ([1], accordion_content) /\
  exists after c',
    clicks 3 accordion_listener accordion_block = Normal after /\
    get_node [1] after = Some c' /\
    matches (ClassSel "expanded") c'
    = xorb (matches (ClassSel "expanded") accordion_content) (Nat.odd 3) /\
    forall tok, tok <> "expanded" ->
                matches (ClassSel tok) c' = matches (ClassSel tok) accordion_content.
Proof.
  split; [reflexivity|]. split; [reflexivity|].
  exact (clicks_toggle_expanded accordion_block accordion_listener [1]
           accordion_content 3 eq_refl eq_refl).
Defined.

(** Two clicks on it: the classes are as before, the attribute is not. *)
Lemma clicks_frame_witness :
  decorate_interactive accordion_block = Normal [accordion_listener] /\
  listener_content accordion_listener = Some ([1], accordion_content) /\
  exists after,
    clicks 2 accordion_listener accordion_block = Normal after /\
    (after = accordion_block \/
     exists t a kids v,
       accordion_content = Element t a kids /\
       after = update_node (fun _ => Element t (setAttribute "class" v a) kids) [1]
                 accordion_block).
Proof.
  split; [reflexivity|]. split; [reflexivity|].
  exact (clicks_frame accordion_block accordion_listener [1]
           accordion_content 2 eq_refl eq_refl).
Defined.

(** ** The page bootstrap when a loading function fails *)

Lemma seq_fails {E} (k : proc E) (rest : proc (event E)) :
  fails k -> seq (lift k) rest = lift k.
Proof. induction 1; simpl; congruence. Qed.

Lemma settled_run_lift {E} (q : proc E) obs (s : loop (event E)) :
  settled obs s -> settled obs (run (lift q) s).
Proof.
  intros (Hs & Ht & Hobs).
  destruct (run_lift q s) as (ks & ts & tr & Hks & Hts & Htr & ->).
  split; [|split]; cbn [suspended timers trace].
  - apply Forall_app. split; assumption.
  - apply Forall_app. split; assumption.
  - rewrite observable_app, (observable_internal tr Htr), app_nil_r. exact Hobs.
Qed.

(** Once only quiet code is left, nothing more of the bootstrap shows. *)
Lemma turn_settled {E} obs (s s' : loop (event E)) :
  settled obs s -> turn s s' -> settled obs s'.
Proof.
  intros (Hs & Ht & Hobs) Hturn.
  destruct Hturn as [s k l1 l2 Hsusp|s t cb l1 l2 Htimers Hdue|s].
  - rewrite Hsusp in Hs. apply Forall_app in Hs as [H1 H2].
    apply Forall_cons in H2 as [[q ->] H2].
    apply settled_run_lift. split; [|split]; cbn [suspended timers trace]; auto.
    apply Forall_app. split; assumption.
  - unfold quiet_timers in Ht. rewrite Htimers in Ht. apply Forall_app in Ht as [H1 H2].
    apply Forall_cons in H2 as [[q Hq] H2]. simpl in Hq. subst cb.
    apply settled_run_lift. split; [|split]; cbn [suspended timers trace]; auto.
    apply Forall_app. split; assumption.
  - split; [|split]; assumption.
Qed.

Section BootstrapFailures.
Context {E : Type}.
Variable codeBasePath : string.
Variables loadEager_body loadLazy_body : proc E.

#[local] Abbreviation Early := (early codeBasePath loadLazy_body).
#[local] Abbreviation RestEager' := (rest_eager codeBasePath loadLazy_body).
#[local] Abbreviation AfterEager' := (after_eager codeBasePath loadLazy_body).

(** X14: when [loadEager] fails, the bootstrap shows its start and
    nothing else, ever: [loadLazy] and [loadDelayed] are not called. *)
Theorem bootstrap_eager_failure t0 s :
  fails loadEager_body ->
  rtc turn (page_load codeBasePath loadEager_body loadLazy_body t0) s ->
  observable (trace s) = [Start Eager].
Proof.
  intros Hfail Hrun.
  assert (Hsettled : settled [Start Eager] s); [|apply Hsettled].
  revert s Hrun. apply rtc_ind_r.
  - unfold page_load. rewrite on_DOMContentLoaded_unfold. cbn [run].
    rewrite (seq_fails _ _ Hfail). apply settled_run_lift.
    split; [|split]; cbn [suspended timers trace now]; try constructor.
  - intros s1 s2 _ Hturn IH. exact (turn_settled _ s1 s2 IH Hturn).
Qed.

Lemma early_quiet_run q s0 :
  Early s0 -> Early (run (lift q) s0).
Proof.
  intros Hearly.
  destruct (run_lift q s0) as (ks & ts & tr & Hks & Hts & Htr & Hrun).
  assert (Hobs : observable (trace s0 ++ tr)%list = observable (trace s0)).
  { rewrite observable_app, (observable_internal tr Htr), app_nil_r. reflexivity. }
  destruct Hearly as [k others s Hperm Hothers Htm Hobs'
                     |others s Hperm Hothers Htm Hobs'
                     |obs s Hcase Hset].
  - rewrite Hrun. apply early_eager with (k := k) (others := (ks ++ others)%list);
      cbn [suspended timers trace].
    + rewrite Hperm. symmetry. apply Permutation_middle.
    + apply Forall_app; auto.
    + apply Forall_app; auto.
    + congruence.
  - rewrite Hrun. apply early_after_eager with (others := (ks ++ others)%list);
      cbn [suspended timers trace].
    + rewrite Hperm. symmetry. apply Permutation_middle.
    + apply Forall_app; auto.
    + apply Forall_app; auto.
    + congruence.
  - apply early_settled with (obs := obs); [exact Hcase|].
    apply settled_run_lift, Hset.
Qed.

Lemma early_listener_run k susp tm tr t :
  Forall quiet susp -> quiet_timers tm -> observable tr = [Start Eager] ->
  Early (run (seq (lift k) RestEager')
             {| now := t; suspended := susp; timers := tm; trace := tr |}).
Proof.
  intros Hsusp Htm Hobs.
  destruct (run_body k RestEager' {| now := t; suspended := susp; timers := tm; trace := tr |})
    as (ts & tr' & Hts & Htr' & H). cbn [now suspended timers trace] in H.
  assert (Hobs' : observable (tr ++ tr')%list = [Start Eager]).
  { rewrite observable_app, (observable_internal tr' Htr'), app_nil_r. exact Hobs. }
  assert (Htm' : quiet_timers (ts ++ tm)%list) by (apply Forall_app; auto).
  destruct H as [[k' ->]| [-> | ->]].
  - apply early_eager with (k := k') (others := susp); cbn [suspended timers trace]; auto.
  - apply early_settled with (obs := [Start Eager]); [left; reflexivity|].
    split; [|split]; assumption.
  - unfold rest_eager. cbn [run now suspended timers trace].
    apply early_after_eager with (others := susp); cbn [suspended timers trace]; auto.
    rewrite observable_snoc, Hobs' by reflexivity. reflexivity.
Qed.

Lemma turn_early s s' :
  fails loadLazy_body -> Early s -> turn s s' -> Early s'.
Proof.
  intros Hfail Hearly Hturn.
  destruct Hturn as [s k l1 l2 Hsusp|s t cb l1 l2 Htimers Hdue|s].
  - assert (Hmid : k :: (l1 ++ l2)%list ≡ₚ suspended s).
    { rewrite Hsusp. apply Permutation_middle. }
    destruct Hearly as [k0 others s Hperm Hothers Htm Hobs
                       |others s Hperm Hothers Htm Hobs
                       |obs s Hcase Hset].
    + rewrite Hperm in Hmid.
      apply Permutation_pick in Hmid as [[-> Hrest]|(k' & Hk' & Hrest)].
      * apply early_listener_run; auto. rewrite Hrest. exact Hothers.
      * rewrite Hk' in Hothers. apply Forall_cons in Hothers as [[q ->] Hothers].
        apply early_quiet_run.
        apply early_eager with (k := k0) (others := k'); cbn [suspended timers trace]; auto.
    + rewrite Hperm in Hmid.
      apply Permutation_pick in Hmid as [[-> Hrest]|(k' & Hk' & Hrest)].
      * unfold after_eager. cbn [run now suspended timers trace].
        rewrite (seq_fails _ _ Hfail).
        apply early_settled with (obs := [Start Eager; Finish Eager; Start Lazy]);
          [right; reflexivity|].
        apply settled_run_lift. split; [|split]; cbn [suspended timers trace]; auto.
        -- rewrite Hrest. exact Hothers.
        -- rewrite observable_snoc, Hobs by reflexivity. reflexivity.
      * rewrite Hk' in Hothers. apply Forall_cons in Hothers as [[q ->] Hothers].
        apply early_quiet_run.
        apply early_after_eager with (others := k'); cbn [suspended timers trace]; auto.
    + apply early_settled with (obs := obs); [exact Hcase|].
      eapply turn_settled; [exact Hset|]. eapply turn_resume. exact Hsusp.
  - destruct Hearly as [k0 others s Hperm Hothers Htm Hobs
                       |others s Hperm Hothers Htm Hobs
                       |obs s Hcase Hset].
    + unfold quiet_timers in Htm. rewrite Htimers in Htm.
      apply Forall_app in Htm as [H1 H2].
      apply Forall_cons in H2 as [[q Hq] H2]. simpl in Hq. subst cb.
      apply early_quiet_run.
      apply early_eager with (k := k0) (others := others); cbn [suspended timers trace]; auto.
      apply Forall_app. split; assumption.
    + unfold quiet_timers in Htm. rewrite Htimers in Htm.
      apply Forall_app in Htm as [H1 H2].
      apply Forall_cons in H2 as [[q Hq] H2]. simpl in Hq. subst cb.
      apply early_quiet_run.
      apply early_after_eager with (others := others); cbn [suspended timers trace]; auto.
      apply Forall_app. split; assumption.
    + apply early_settled with (obs := obs); [exact Hcase|].
      eapply turn_settled; [exact Hset|]. eapply turn_timer; eassumption.
  - destruct Hearly as [k0 others s Hperm Hothers Htm Hobs
                       |others s Hperm Hothers Htm Hobs
                       |obs s Hcase Hset].
    + apply early_eager with (k := k0) (others := others); auto.
    + apply early_after_eager with (others := others); auto.
    + apply early_settled with (obs := obs); [exact Hcase|].
      eapply turn_settled; [exact Hset|]. apply turn_tick.
Qed.

Lemma early_observable s :
  Early s ->
  observable (trace s) `prefix_of` [Start Eager; Finish Eager; Start Lazy].
Proof.
  intros [k others s' Hperm Hothers Htm Hobs
         |others s' Hperm Hothers Htm Hobs
         |obs s' [-> | ->] (_ & _ & Hobs)];
    rewrite Hobs; eexists; reflexivity.
Qed.

(** X15: when [loadLazy] fails, the bootstrap never shows more than
    the start and the end of [loadEager] and the start of [loadLazy]:
    [loadDelayed] is not called and [delayed.js] is never imported. *)
Theorem bootstrap_lazy_failure t0 s :
  fails loadLazy_body ->
  rtc turn (page_load codeBasePath loadEager_body loadLazy_body t0) s ->
  observable (trace s) `prefix_of` [Start Eager; Finish Eager; Start Lazy] /\
  forall t, ((t, Start Delayed) ∉ trace s) /\ ((t, Import "./delayed.js") ∉ trace s).
Proof.
  intros Hfail Hrun.
  assert (Hearly : Early s).
  { revert s Hrun. apply rtc_ind_r.
    - unfold page_load. rewrite on_DOMContentLoaded_unfold. cbn [run].
      apply early_listener_run; try constructor.
    - intros s1 s2 _ Hturn IH. exact (turn_early s1 s2 Hfail IH Hturn). }
  apply early_observable in Hearly. split; [exact Hearly|].
  intros t. split; intros Hin;
    apply observable_elem in Hin; try reflexivity;
    destruct Hearly as [rest Hrest];
    assert (Hlen : length (observable (trace s)) <= 3)
      by (apply (f_equal (@length _)) in Hrest; rewrite length_app in Hrest;
          simpl in Hrest; lia);
    destruct (observable (trace s)) as [|e1 [|e2 [|e3 [|e4 l]]]];
    simpl in Hlen; try lia; simpl in Hrest;
    repeat (apply elem_of_cons in Hin as [Hin|Hin]; [subst; discriminate Hrest|]);
    apply elem_of_nil in Hin; exact Hin.
Qed.
End BootstrapFailures.

Lemma failed_eager_run :
  rtc turn (page_load EmptyString failing_eager sample_lazy 0) failed_eager_end.
Proof.
  eapply rtc_l; [eapply (turn_resume _ _ [] _); reflexivity|]. cbn.
  eapply rtc_trans; [apply (ticks 5000)|]. cbn [now suspended timers trace].
  apply rtc_refl.
Defined.

Lemma bootstrap_eager_failure_witness :
  fails failing_eager /\
  rtc turn (page_load EmptyString failing_eager sample_lazy 0) failed_eager_end /\
  observable (trace failed_eager_end) = [Start Eager].
Proof.
  assert (Hfail : fails failing_eager) by (repeat constructor).
  split; [exact Hfail|]. split; [exact failed_eager_run|].
  exact (bootstrap_eager_failure EmptyString failing_eager sample_lazy 0
           failed_eager_end Hfail failed_eager_run).
Defined.

Lemma failed_lazy_run :
  rtc turn (page_load EmptyString sample_eager failing_lazy 0) failed_lazy_end.
Proof.
  eapply rtc_l; [eapply (turn_resume _ _ [] _); reflexivity|]. cbn.
  eapply rtc_l; [eapply (turn_resume _ _ [] _); reflexivity|]. cbn.
  eapply rtc_l; [eapply (turn_resume _ _ [] _); reflexivity|]. cbn.
  eapply rtc_trans; [apply (ticks 100)|]. cbn [now suspended timers trace].
  eapply rtc_l; [eapply (turn_timer _ _ _ [] _); [reflexivity | cbn; lia]|]. cbn.
  eapply rtc_trans; [apply (ticks 4900)|]. cbn [now suspended timers trace].
  apply rtc_refl.
Defined.

Lemma bootstrap_lazy_failure_witness :
  fails failing_lazy /\
  rtc turn (page_load EmptyString sample_eager failing_lazy 0) failed_lazy_end /\
  observable (trace failed_lazy_end)
    `prefix_of` [Start Eager; Finish Eager; Start Lazy] /\
  forall t, ((t, Start Delayed) ∉ trace failed_lazy_end) /\
            ((t, Import "./delayed.js") ∉ trace failed_lazy_end).
Proof.
  assert (Hfail : fails failing_lazy) by (repeat constructor).
  split; [exact Hfail|]. split; [exact failed_lazy_run|].
  exact (bootstrap_lazy_failure EmptyString sample_eager failing_lazy 0
           failed_lazy_end Hfail failed_lazy_run).
Defined.
